(** * Browser tool layer of agent-sdk-browseruse (src/index.js)

    A shallow embedding of the seven tools of [index.js] (open_browser,
    open_url, take_screenshot, find_elements, click_element,
    fill_form_fields, close_browser) and the properties of its
    element-resolution engine.

    The tools are asynchronous JavaScript functions over two module-level
    variables ([browser], [page]) that call an automation driver
    (Playwright) and may throw.  They are embedded in a state-and-error
    monad: the state holds the two variables and the log of driver calls
    made so far, and the driver is an arbitrary function of that log. *)

From Stdlib Require Import String Ascii List Bool Arith ZArith QArith Qround Lia.
From Stdlib Require Import DecimalString Sorted Permutation.
Import ListNotations.

Close Scope Q_scope.
Open Scope list_scope.
Open Scope string_scope.

(* ================================================================== *)
(** ** JavaScript strings *)

(** A JavaScript string is a sequence of UTF-16 code units.  The strings
    of this development are the sequences of code units below 256 (the
    Latin-1 range): a character [c] stands for the code unit
    [nat_of_ascii c], so that 201 is the letter E with acute accent and
    160 the no-break space.  The string methods used by [index.js] are
    given in full on that range, on which they are closed. *)
Module JsString.

(** The double quote character, which appears inside selectors and
    messages built by template literals. *)
Definition dq : string := String (ascii_of_nat 34) EmptyString.

(** Truthiness of a string: the empty string is falsy. *)
Definition truthy (s : string) : bool :=
  match s with EmptyString => false | String _ _ => true end.

(** [a || b] on strings. *)
Definition or_else (a b : string) : string := if truthy a then a else b.

(** The code units that [toLowerCase] changes: A to Z (65 to 90), and
    the accented capitals U+00C0 to U+00DE apart from the multiplication
    sign U+00D7.  Each is mapped 32 further, to its small letter. *)
Definition is_upper (c : ascii) : bool :=
  let n := nat_of_ascii c in
  ((65 <=? n)%nat && (n <=? 90)%nat)
  || ((192 <=? n)%nat && (n <=? 222)%nat && negb (n =? 215)%nat).

Definition lower_char (c : ascii) : ascii :=
  if is_upper c then ascii_of_nat (nat_of_ascii c + 32) else c.

(** [s.toLowerCase()] *)
Fixpoint toLowerCase (s : string) : string :=
  match s with
  | EmptyString => EmptyString
  | String c r => String (lower_char c) (toLowerCase r)
  end.

(** White space as matched by [\s] and removed by [trim()]: TAB, LF, VT,
    FF, CR, SPACE and the no-break space U+00A0. *)
Definition is_space (c : ascii) : bool :=
  let n := nat_of_ascii c in
  ((9 <=? n)%nat && (n <=? 13)%nat) || (n =? 32)%nat || (n =? 160)%nat.

(** Word characters as matched by [\w]: the letters A to Z and a to z, the
    digits and the underscore. *)
Definition is_word (c : ascii) : bool :=
  let n := nat_of_ascii c in
  ((48 <=? n)%nat && (n <=? 57)%nat) || ((65 <=? n)%nat && (n <=? 90)%nat)
  || ((97 <=? n)%nat && (n <=? 122)%nat) || (n =? 95)%nat.

Fixpoint trimStart (s : string) : string :=
  match s with
  | EmptyString => EmptyString
  | String c r => if is_space c then trimStart r else s
  end.

(** Removes trailing white space: a character is kept unless it is white
    space and everything after it was removed too. *)
Fixpoint trimEnd (s : string) : string :=
  match s with
  | EmptyString => EmptyString
  | String c r =>
      match trimEnd r with
      | EmptyString => if is_space c then EmptyString else String c EmptyString
      | r' => String c r'
      end
  end.

(** [s.trim()] *)
Definition trim (s : string) : string := trimEnd (trimStart s).

(** [s.replace(/\s+/g, '')]: every white space character is dropped. *)
Fixpoint strip_spaces (s : string) : string :=
  match s with
  | EmptyString => EmptyString
  | String c r => if is_space c then strip_spaces r else String c (strip_spaces r)
  end.

(** [s.replace(/\W+/g, '_')]: every maximal run of non-word characters
    becomes one underscore.  [in_run] tells that the previous character
    already belonged to the run being replaced. *)
Fixpoint replace_nonword (in_run : bool) (s : string) : string :=
  match s with
  | EmptyString => EmptyString
  | String c r =>
      if is_word c then String c (replace_nonword false r)
      else if in_run then replace_nonword true r
      else String "_"%char (replace_nonword true r)
  end.

(** [t] is a prefix of [s]. *)
Fixpoint startsWith (s t : string) : bool :=
  match t, s with
  | EmptyString, _ => true
  | String _ _, EmptyString => false
  | String b t', String a s' => Ascii.eqb a b && startsWith s' t'
  end.

(** [s.includes(t)]: [t] occurs in [s] at some position. *)
Fixpoint includes (s t : string) : bool :=
  startsWith s t ||
  match s with
  | EmptyString => false
  | String _ s' => includes s' t
  end.

(** [s.slice(0, n)] *)
Definition slice0 (n : nat) (s : string) : string := substring 0 n s.

(** Decimal rendering of an integer inside a template literal. *)
Definition of_Z (z : Z) : string := NilZero.string_of_int (Z.to_int z).

(** [xs.join(sep)] *)
Fixpoint join (sep : string) (xs : list string) : string :=
  match xs with
  | [] => ""
  | [x] => x
  | x :: rest => x ++ sep ++ join sep rest
  end.

End JsString.
Import JsString.

(* ================================================================== *)
(** ** The document seen by the in-page function of find_elements *)

(** [el.getBoundingClientRect()], in CSS pixels. *)
Module DOMRect.
Record t : Type := make { left : Q; top : Q; width : Q; height : Q }.
End DOMRect.

(** The value of [el.className]: a string, the class attribute, on an
    HTML element; an [SVGAnimatedString] object on an SVG element. *)
Module ClassName.
Inductive t : Type :=
| Str (s : string)
| Animated.

(** Truthiness: an object is truthy, a string unless it is empty. *)
Definition truthy (v : t) : bool :=
  match v with
  | Str s => JsString.truthy s
  | Animated => true
  end.

(** [String(v)] and [v.toString()]. *)
Definition to_string (v : t) : string :=
  match v with
  | Str s => s
  | Animated => "[object SVGAnimatedString]"
  end.
End ClassName.

(** The properties of a DOM element that the in-page function reads.
    [innerText] is read only when [textContent] is empty; an element
    without that property has the empty string here, which [||] treats
    as it treats [undefined]. *)
Module Element.
Record t : Type := make {
  getBoundingClientRect : DOMRect.t;
  textContent : string;
  innerText : string;
  className : ClassName.t;
  id : string;
  tagName : string
}.
End Element.

(** [document.querySelectorAll(selector)], the elements in document order. *)
Module Document.
Record t : Type := make { querySelectorAll : string -> list Element.t }.
End Document.

(** One entry of the array that find_elements returns. *)
Module Candidate.
Record t : Type := make {
  text : string;
  tag : string;
  id : option string;
  className : string;
  confidence : nat;
  center : Z * Z
}.
End Candidate.

(** The value [{ count, top }] returned by find_elements. *)
Module Found.
Record t : Type := make { count : nat; top : list Candidate.t }.
End Found.

Module Locate.

Definition selectors : list string :=
  [ "a"; "button"; "[role=" ++ dq ++ "button" ++ dq ++ "]";
    "input[type=" ++ dq ++ "button" ++ dq ++ "]";
    "input[type=" ++ dq ++ "submit" ++ dq ++ "]";
    ".btn"; ".button"; "[onclick]" ].

(** [0 < q] on pixel measures. *)
Definition positive (q : Q) : bool := negb (Qle_bool q 0).

(** [Math.round(q)]: the nearest integer, halves rounded up. *)
Definition Math_round (q : Q) : Z := Qfloor (q + (1 # 2))%Q.

(** The predicate of [terms.filter(t => ...)] for one element. *)
Definition term_matches (el : Element.t) (lowerText t : string) : bool :=
  includes lowerText (toLowerCase t)
  || (ClassName.truthy (Element.className el)
      && includes (toLowerCase (ClassName.to_string (Element.className el)))
                  (toLowerCase t))
  || (truthy (Element.id el)
      && includes (toLowerCase (Element.id el)) (toLowerCase t)).

(** The trimmed text of an element, [(el.textContent || el.innerText || '').trim()]. *)
Definition element_text (el : Element.t) : string :=
  trim (or_else (Element.textContent el) (or_else (Element.innerText el) "")).

Definition visible (el : Element.t) : bool :=
  let rect := Element.getBoundingClientRect el in
  positive (DOMRect.width rect) && positive (DOMRect.height rect).

(** [terms.filter(...)] for one element. *)
Definition matched_terms (terms : list string) (el : Element.t) : list string :=
  filter (term_matches el (toLowerCase (element_text el))) terms.

(** The object pushed for a visible element with at least one matched term. *)
Definition candidate (terms : list string) (el : Element.t) : Candidate.t :=
  let rect := Element.getBoundingClientRect el in
  {| Candidate.text := slice0 80 (element_text el);
     Candidate.tag := toLowerCase (Element.tagName el);
     Candidate.id := if truthy (Element.id el) then Some (Element.id el) else None;
     Candidate.className :=
       slice0 80 (if ClassName.truthy (Element.className el)
                  then ClassName.to_string (Element.className el)
                  else "");
     Candidate.confidence := length (matched_terms terms el);
     Candidate.center :=
       (Math_round (DOMRect.left rect + DOMRect.width rect / (2 # 1))%Q,
        Math_round (DOMRect.top rect + DOMRect.height rect / (2 # 1))%Q) |}.

(** The body of the inner [forEach]: what one element adds to [out]. *)
Definition visit (terms : list string) (el : Element.t) : list Candidate.t :=
  if visible el then
    match matched_terms terms el with
    | [] => []
    | _ :: _ => [candidate terms el]
    end
  else [].

(** The array [out] after both [forEach] loops. *)
Definition collect (document : Document.t) (terms : list string) : list Candidate.t :=
  flat_map (fun selector =>
              flat_map (visit terms) (Document.querySelectorAll document selector))
           selectors.

(** The comparison function given to [out.sort]. *)
Definition compare (a b : Candidate.t) : Z :=
  if negb (Candidate.confidence a =? Candidate.confidence b)%nat
  then Z.of_nat (Candidate.confidence b) - Z.of_nat (Candidate.confidence a)
  else Z.of_nat (String.length (Candidate.text b))
       - Z.of_nat (String.length (Candidate.text a)).

(** [Array.prototype.sort] with a comparison function: the stable
    arrangement in which [a] stays before [b] unless [cmp a b > 0].
    It is computed here by stable insertion from the right; the
    properties proved of it are that it rearranges the array and that
    no element stands after one it must precede. *)
Fixpoint insert {A} (cmp : A -> A -> Z) (x : A) (l : list A) : list A :=
  match l with
  | [] => [x]
  | y :: l' => if (cmp x y <=? 0)%Z then x :: l else y :: insert cmp x l'
  end.

Definition sort {A} (cmp : A -> A -> Z) (l : list A) : list A :=
  fold_right (insert cmp) [] l.

(** The function evaluated inside the page. *)
Definition page_function (document : Document.t) (terms : list string)
  : list Candidate.t :=
  sort compare (collect document terms).

(** [elements.slice(0, 6)] and the returned object. *)
Definition result (elements : list Candidate.t) : Found.t :=
  let trimmed := firstn 6 elements in
  {| Found.count := length trimmed; Found.top := trimmed |}.

End Locate.

(* ================================================================== *)
(** ** The automation driver *)

(** Browser and page objects are identified by a number. *)
Definition Handle := nat.

(** [new RegExp(source, flags)] *)
Record RegExp : Type := mkRegExp { source : string; flags : string }.

(** Playwright locators.  Building a locator does not touch the page. *)
Inductive Locator : Type :=
| getByRole (role : string) (name : RegExp)
| getByText (text : string)                  (* with [{ exact: false }] *)
| getByLabel (name : RegExp)
| getByPlaceholder (name : RegExp)
| locator (selector : string)
| first (l : Locator)
| sub_locator (l : Locator) (selector : string).  (* [l.locator(selector)] *)

(** The calls that [index.js] makes on its environment (the driver, the
    file system and the clock), indexed by the type of the value a
    successful call yields.  Calls on a page carry the page handle.
    Coordinates and delays, which are JavaScript numbers, are integers
    here. *)
Inductive Op : Type -> Type :=
| Launch : Op Handle                                         (* chromium.launch *)
| NewPage (b : Handle) : Op Handle                           (* browser.newPage *)
| BrowserClose (b : Handle) : Op unit                        (* browser.close *)
| SetViewportSize (p : Handle) (w h : Z) : Op unit
| Goto (p : Handle) (url : string) (timeout : Z) : Op unit   (* waitUntil domcontentloaded *)
| WaitForTimeout (p : Handle) (ms : Z) : Op unit
| Title (p : Handle) : Op string
| ExistsSync (path : string) : Op bool                       (* fs.existsSync *)
| MkdirSync (path : string) : Op unit                        (* fs.mkdirSync, recursive *)
| DateNow : Op Z                                             (* Date.now *)
| Screenshot (p : Handle) (path : string) : Op unit
| Evaluate (p : Handle) (terms : list string) : Op Document.t
    (* page.evaluate: resolves to the document the in-page function runs on *)
| Click (p : Handle) (l : Locator) (timeout : Z) : Op unit   (* locator.click *)
| PageClick (p : Handle) (selector : string) (timeout : Z) : Op unit  (* page.click *)
| MouseClick (p : Handle) (x y : Z) : Op unit                (* page.mouse.click *)
| Fill (p : Handle) (l : Locator) (value : string) (timeout : Z) : Op unit
| Count (p : Handle) (l : Locator) : Op nat                  (* locator.count *)
| GetAttribute (p : Handle) (l : Locator) (name : string) : Op (option string).

(** A call that was made, whatever its result type. *)
Inductive Call : Type :=
| call : forall R : Type, Op R -> Call.
Arguments call {R} op.

(** How an awaited call settles. *)
Inductive Outcome (R : Type) : Type :=
| Resolved (r : R)
| Rejected (message : string).
Arguments Resolved {R} r.
Arguments Rejected {R} message.

(** The driver answers each call from the calls made before it. *)
Definition Driver : Type := forall R : Type, list Call -> Op R -> Outcome R.

(* ================================================================== *)
(** ** Module state and the monad of tool bodies *)

(** The two module-level variables and the log of driver calls.  [None]
    stands for both [undefined] and [null]; every handle is truthy. *)
Record State : Type := mkState {
  browser : option Handle;
  page : option Handle;
  calls : list Call
}.

(** A function body either returns a value or throws an [Error] with a message. *)
Inductive Completion (A : Type) : Type :=
| Return (a : A)
| Throw (message : string).
Arguments Return {A} a.
Arguments Throw {A} message.

Definition M (A : Type) : Type := State -> Completion A * State.

Definition ret {A} (a : A) : M A := fun st => (Return a, st).

Definition throw {A} (message : string) : M A := fun st => (Throw message, st).

Definition bind {A B} (m : M A) (k : A -> M B) : M B :=
  fun st =>
    match m st with
    | (Return a, st') => k a st'
    | (Throw e, st') => (Throw e, st')
    end.

(** [try { m } catch (error) { handler(error.message) }] *)
Definition try_catch {A} (m : M A) (handler : string -> M A) : M A :=
  fun st =>
    match m st with
    | (Return a, st') => (Return a, st')
    | (Throw e, st') => handler e st'
    end.

Notation "x <- c1 ;; c2" := (bind c1 (fun x => c2))
  (at level 61, c1 at next level, right associativity).
Notation "c1 ;; c2" := (bind c1 (fun _ => c2))
  (at level 61, right associativity).

Definition set_browser (b : option Handle) : M unit :=
  fun st => (Return tt, mkState b (page st) (calls st)).

Definition set_page (p : option Handle) : M unit :=
  fun st => (Return tt, mkState (browser st) p (calls st)).

Definition get_browser : M (option Handle) := fun st => (Return (browser st), st).

Definition not_initialized : string := "Browser not initialized. Call open_browser first.".

(** [if (!page) throw new Error('Browser not initialized. ...')] *)
Definition require_page : M Handle :=
  fun st =>
    match page st with
    | Some p => (Return p, st)
    | None => (Throw not_initialized, st)
    end.

Section Tools.

(** The environment of the script: the driver, which regular expression
    sources compile, and the screenshot directory
    [path.join(process.cwd(), 'screenshots')]. *)
Variable driver : Driver.
Variable regexp_compiles : string -> bool.
Variable SCREEN_DIR : string.

(** [await op]: the call is logged and settles as the driver says. *)
Definition await {R} (op : Op R) : M R :=
  fun st =>
    let st' := mkState (browser st) (page st) (calls st ++ [call op])%list in
    match driver R (calls st) op with
    | Resolved r => (Return r, st')
    | Rejected e => (Throw e, st')
    end.

(** [new RegExp(source, flags)] throws a SyntaxError on a source that
    does not compile. *)
Definition new_RegExp (src fl : string) : M RegExp :=
  if regexp_compiles src then ret (mkRegExp src fl)
  else throw ("Invalid regular expression: /" ++ src ++ "/" ++ fl).

(* ---------------------------------------------------------------- *)
(** *** open_browser, open_url, take_screenshot, close_browser *)

Definition openBrowser : M string :=
  try_catch
    (b <- await Launch ;;
     set_browser (Some b) ;;
     p <- await (NewPage b) ;;
     set_page (Some p) ;;
     await (SetViewportSize p 1280 720) ;;
     ret "Browser opened")
    (fun error => throw ("Failed to open browser: " ++ error)).

Definition openURL (url : string) : M string :=
  p <- require_page ;;
  try_catch
    (await (Goto p url 30000) ;;
     await (WaitForTimeout p 1500) ;;
     title <- await (Title p) ;;
     ret ("Opened URL. Title: " ++ title))
    (fun error => throw ("Failed to navigate to " ++ url ++ ": " ++ error)).

Definition ensureScreenDir : M unit :=
  present <- await (ExistsSync SCREEN_DIR) ;;
  if negb present then await (MkdirSync SCREEN_DIR) else ret tt.

Definition takeScreenshot (label : option string) : M string :=
  p <- require_page ;;
  try_catch
    (ensureScreenDir ;;
     let suffix :=
       match label with
       | Some l => if truthy l then replace_nonword false l else ""
       | None => ""
       end in
     now <- await DateNow ;;
     let fname :=
       "shot-" ++ of_Z now ++ (if truthy suffix then "-" ++ suffix else "") ++ ".png" in
     let fpath := SCREEN_DIR ++ "/" ++ fname in
     await (Screenshot p fpath) ;;
     ret ("Screenshot saved: " ++ fname))
    (fun error => throw ("Failed to take screenshot: " ++ error)).

Definition closeBrowser : M string :=
  try_catch
    (b <- get_browser ;;
     match b with
     | Some b =>
         await (BrowserClose b) ;;
         set_browser None ;;
         set_page None ;;
         ret "Browser closed"
     | None => ret "Browser not open"
     end)
    (fun error => throw ("Failed to close browser: " ++ error)).

(* ---------------------------------------------------------------- *)
(** *** find_elements *)

Definition findElements (searchTerms : list string) : M Found.t :=
  p <- require_page ;;
  try_catch
    (document <- await (Evaluate p searchTerms) ;;
     let elements := Locate.page_function document searchTerms in
     ret (Locate.result elements))
    (fun error => throw ("Failed to find elements: " ++ error)).

(* ---------------------------------------------------------------- *)
(** *** click_element *)

(** The array [attempts] of click_element, one closure per strategy. *)
Definition click_attempts (p : Handle) (text : string) : list (M unit) :=
  [ (re <- new_RegExp text "i" ;; await (Click p (getByRole "button" re) 2000));
    (re <- new_RegExp text "i" ;; await (Click p (getByRole "link" re) 2000));
    await (Click p (getByText text) 2000);
    await (PageClick p ("text=" ++ dq ++ text ++ dq) 2000);
    await (PageClick p (":has-text(" ++ dq ++ text ++ dq ++ ")") 2000) ].

Definition clicked (text : string) : string := "Clicked " ++ dq ++ text ++ dq.

Definition could_not_click (text : string) : string :=
  "Could not click " ++ dq ++ text ++ dq.

(** One turn of the loop body
    [try { await tryClick(); await page.waitForTimeout(600); return ... } catch {}]. *)
Definition click_turn (p : Handle) (text : string) (tryClick : M unit) : M string :=
  tryClick ;; await (WaitForTimeout p 600) ;; ret (clicked text).

(** The [for] loop over [attempts] and the [throw] that follows it. *)
Fixpoint click_loop (p : Handle) (text : string) (attempts : list (M unit)) : M string :=
  match attempts with
  | [] => throw (could_not_click text)
  | tryClick :: rest =>
      try_catch (click_turn p text tryClick) (fun _ => click_loop p text rest)
  end.

Definition clickElement (text : option string) (x y : option Z) : M string :=
  p <- require_page ;;
  try_catch
    (match text with
     | Some (String _ _ as t) => click_loop p t (click_attempts p t)
     | _ =>
         match x, y with
         | Some x, Some y =>
             await (MouseClick p x y) ;;
             await (WaitForTimeout p 600) ;;
             ret ("Clicked at (" ++ of_Z x ++ ", " ++ of_Z y ++ ")")
         | _, _ => throw "Provide text or coordinates"
         end
     end)
    (fun error => throw ("Failed to click: " ++ error)).

(* ---------------------------------------------------------------- *)
(** *** fill_form_fields *)

(** The normalized key of a synonym, [lbl.toLowerCase().replace(/\s+/g,'')]. *)
Definition key_of (lbl : string) : string := strip_spaces (toLowerCase lbl).

(** The five closures pushed for one synonym, in the order of the pushes. *)
Definition by_label (p : Handle) (lbl value : string) : M unit :=
  re <- new_RegExp ("^" ++ lbl ++ "$") "i" ;;
  await (Fill p (getByLabel re) value 1000).

Definition by_placeholder (p : Handle) (lbl value : string) : M unit :=
  re <- new_RegExp lbl "i" ;;
  await (Fill p (getByPlaceholder re) value 1000).

Definition by_name (p : Handle) (key value : string) : M unit :=
  await (Fill p (first (locator ("input[name*=" ++ dq ++ key ++ dq ++ "]"))) value 1000).

Definition by_id (p : Handle) (key value : string) : M unit :=
  await (Fill p (first (locator ("input[id*=" ++ dq ++ key ++ dq ++ "]"))) value 1000).

Definition by_label_element (p : Handle) (lbl value : string) : M unit :=
  let labelEl := first (locator ("label:has-text(" ++ dq ++ lbl ++ dq ++ ")")) in
  has <- await (Count p labelEl) ;;
  if (has =? 0)%nat then throw "label not found"
  else
    f <- try_catch (await (GetAttribute p labelEl "for")) (fun _ => ret None) ;;
    match f with
    | Some (String _ _ as target) =>
        await (Fill p (locator ("#" ++ target)) value 1000)
    | _ =>
        await (Fill p (first (sub_locator (sub_locator labelEl "..") "input")) value 1000)
    end.

(** One turn of [for (const lbl of labels)]: five pushes onto [attempts]. *)
Definition push_attempts (p : Handle) (value : string)
           (attempts : list (M unit)) (lbl : string) : list (M unit) :=
  let key := key_of lbl in
  (attempts ++ [ by_label p lbl value;
                 by_placeholder p lbl value;
                 by_name p key value;
                 by_id p key value;
                 by_label_element p lbl value ])%list.

Definition fill_attempts (p : Handle) (labels : list string) (value : string)
  : list (M unit) :=
  fold_left (push_attempts p value) labels [].

(** [for (const a of attempts) { try { await a(); return true; } catch {} } return false;] *)
Fixpoint first_success (attempts : list (M unit)) : M bool :=
  match attempts with
  | [] => ret false
  | a :: rest => try_catch (a ;; ret true) (fun _ => first_success rest)
  end.

Definition tryFill (p : Handle) (labels : list string) (value : option string) : M bool :=
  match value with
  | None => ret false
  | Some v => first_success (fill_attempts p labels v)
  end.

(** One entry of [tasks]. *)
Record Task : Type := mkTask {
  key : string;
  value : option string;
  labels : list string
}.

(** The parameters of fill_form_fields. *)
Record FillArgs : Type := mkFillArgs {
  firstName : option string;
  lastName : option string;
  fullName : option string;
  email : option string;
  userName : option string;
  password : option string;
  confirmPassword : option string;
  message : option string;
  perFieldDelayMs : option Z
}.

Definition tasks (a : FillArgs) : list Task :=
  [ mkTask "First Name" (firstName a) ["First Name"; "Firstname"; "Given Name"; "First"];
    mkTask "Last Name" (lastName a)
           ["Last Name"; "Lastname"; "Surname"; "Family Name"; "Last"];
    mkTask "Full Name" (fullName a) ["Full Name"; "Full name"; "FullName"; "fullName"];
    mkTask "Email" (email a) ["Email"; "Email Address"; "E-mail"];
    mkTask "Username" (userName a) ["Username"; "UserName"; "User name"];
    mkTask "Password" (password a) ["Password"; "New Password"];
    mkTask "Your Message" (message a) ["Your Message"; "message"];
    mkTask "Confirm Password" (confirmPassword a)
           ["Confirm Password"; "Re-enter Password"; "Retype Password"; "Confirm"] ].

(** The string pushed onto [results] for one attempted task. *)
Definition entry (t : Task) (ok : bool) : string :=
  key t ++ ":" ++ (if ok then "ok" else "missing").

(** [if (delay) await page.waitForTimeout(delay)] *)
Definition settle (p : Handle) (delay : Z) : M unit :=
  if (delay =? 0)%Z then ret tt else await (WaitForTimeout p delay).

(** The loop [for (const t of tasks)], with [results] as accumulator. *)
Fixpoint fill_loop (p : Handle) (delay : Z) (ts : list Task) (results : list string)
  : M (list string) :=
  match ts with
  | [] => ret results
  | t :: rest =>
      match value t with
      | None => fill_loop p delay rest results
      | Some _ =>
          ok <- tryFill p (labels t) (value t) ;;
          let results := (results ++ [entry t ok])%list in
          settle p delay ;;
          fill_loop p delay rest results
      end
  end.

Definition delay_of (a : FillArgs) : Z :=
  match perFieldDelayMs a with Some ms => ms | None => 120%Z end.

Definition fillFormFields (a : FillArgs) : M string :=
  p <- require_page ;;
  results <- fill_loop p (delay_of a) (tasks a) [] ;;
  ret (join "|" results).

End Tools.

(* ================================================================== *)
(** ** The script around the tools *)

Section Agent.

Variable driver : Driver.

(** [chatWithAgent(query)].  [run] stands for
    [run(websiteAutomationAgent, query)], the planner's run over the
    tools: some computation on the module state that returns the final
    output or throws.  Console output is not part of the state. *)
Definition chatWithAgent (run : M string) : M unit :=
  try_catch
    (result <- run ;; ret tt)
    (fun _ =>
       b <- get_browser ;;
       match b with
       | Some b => try_catch (await driver (BrowserClose b)) (fun _ => ret tt)
       | None => ret tt
       end).

End Agent.

(* ================================================================== *)
(** ** Scripted environments

    Concrete drivers and documents on which the tools can be run. *)
Module Script.

(** A session that was never opened, or was closed. *)
Definition closed : State := mkState None None [].

(** A session opened on browser 1 and page 2. *)
Definition opened : State := mkState (Some 1%nat) (Some 2%nat) [].

(** A driver that resolves the calls selected by [works] and rejects the
    others with a timeout; [document] is what the in-page function sees. *)
Definition driver (document : Document.t) (works : list Call -> Call -> bool) : Driver :=
  fun R log op =>
    if works log (call op) then
      match op in Op R return Outcome R with
      | Launch => Resolved 1%nat
      | NewPage _ => Resolved 2%nat
      | BrowserClose _ => Resolved tt
      | SetViewportSize _ _ _ => Resolved tt
      | Goto _ _ _ => Resolved tt
      | WaitForTimeout _ _ => Resolved tt
      | Title _ => Resolved "Sign Up"
      | ExistsSync _ => Resolved true
      | MkdirSync _ => Resolved tt
      | DateNow => Resolved 1693333333333%Z
      | Screenshot _ _ => Resolved tt
      | Evaluate _ _ => Resolved document
      | Click _ _ _ => Resolved tt
      | PageClick _ _ _ => Resolved tt
      | MouseClick _ _ _ => Resolved tt
      | Fill _ _ _ _ => Resolved tt
      | Count _ _ => Resolved 1%nat
      | GetAttribute _ _ _ => Resolved None
      end
    else Rejected "Timeout exceeded.".

Definition always : list Call -> Call -> bool := fun _ _ => true.
Definition never : list Call -> Call -> bool := fun _ _ => false.

(** Only the settle delays resolve: no element is ever found. *)
Definition only_waits : list Call -> Call -> bool :=
  fun _ c => match c with call (WaitForTimeout _ _) => true | _ => false end.

(** Filling resolves only through an [id] attribute containing ["email"]. *)
Definition email_by_id : list Call -> Call -> bool :=
  fun _ c =>
    match c with
    | call (WaitForTimeout _ _) => true
    | call (Fill _ (first (locator sel)) _ _) =>
        String.eqb sel ("input[id*=" ++ dq ++ "email" ++ dq ++ "]")
    | _ => false
    end.

(** Clicking resolves only through the raw text selector. *)
Definition click_by_text_selector : list Call -> Call -> bool :=
  fun _ c =>
    match c with
    | call (WaitForTimeout _ _) => true
    | call (PageClick _ sel _) => startsWith sel "text="
    | _ => false
    end.

Definition rect (l t w h : Z) : DOMRect.t :=
  DOMRect.make (inject_Z l) (inject_Z t) (inject_Z w) (inject_Z h).

Definition signup_link : Element.t :=
  Element.make (rect 10 10 100 20) " Sign Up " "Sign Up" (ClassName.Str "nav-link") "signup" "A".

Definition submit_button : Element.t :=
  Element.make (rect 10 200 120 40) "Sign Up Now" "Sign Up Now" (ClassName.Str "btn primary") "" "BUTTON".

(** A button that matches every hint but has no rendered box. *)
Definition hidden_button : Element.t :=
  Element.make (rect 10 300 0 40) "Sign Up" "Sign Up" (ClassName.Str "btn") "signup-hidden" "BUTTON".

Definition icon_button : Element.t :=
  Element.make (rect 300 10 16 16) "" "" (ClassName.Str "btn") "" "BUTTON".

(** A page with two links, and three buttons of which one is hidden. *)
Definition signup_page : Document.t :=
  Document.make (fun selector =>
    if String.eqb selector "a" then [signup_link]
    else if String.eqb selector "button" then [submit_button; hidden_button; icon_button]
    else if String.eqb selector ".btn" then [submit_button; hidden_button; icon_button]
    else []).

(** A page on which every whitelisted selector finds the same ten links. *)
Definition crowded_page : Document.t :=
  Document.make (fun _ => repeat signup_link 10).

Definition empty_page : Document.t := Document.make (fun _ => []).

(** Environments in which every call resolves. *)
Definition signup : Driver := driver signup_page always.
Definition crowded : Driver := driver crowded_page always.

(** Every regular expression source compiles. *)
Definition compiles : string -> bool := fun _ => true.

Definition dir : string := "/srv/agent/screenshots".

Definition hints : list string := ["sign"; "up"; "btn"].

(** A hint list that names the same term twice. *)
Definition repeated_hints : list string := ["sign"; "sign"].

(** What locate elements returns for [hints] on the signup page, and the
    state it leaves. *)
Definition found : Found.t := Locate.result (Locate.page_function signup_page hints).
Definition located : State := mkState (Some 1%nat) (Some 2%nat) [call (Evaluate 2%nat hints)].

Definition submit_candidate : Candidate.t := Locate.candidate hints submit_button.
Definition link_candidate : Candidate.t := Locate.candidate hints signup_link.

(** The letters E and e with acute accent, and the no-break space. *)
Definition E_acute : string := String (ascii_of_nat 201) "".
Definition e_acute : string := String (ascii_of_nat 233) "".
Definition nbsp : string := String (ascii_of_nat 160) "".

(** A link whose text is an accented word between no-break spaces. *)
Definition cafe_link : Element.t :=
  Element.make (rect 10 400 60 20) (nbsp ++ "Caf" ++ e_acute ++ nbsp) ""
               (ClassName.Str "") "" "A".

(** A link of an SVG image: its [className] is an object. *)
Definition svg_link : Element.t :=
  Element.make (rect 10 500 24 24) "logo" "" ClassName.Animated "" "a".

(** A fill request with a first name and an email only. *)
Definition name_and_email : FillArgs :=
  mkFillArgs (Some "Sudhesh") None None (Some "x@y.com") None None None None None.

(** The first call of a session is rejected, every later call resolves. *)
Definition first_call_fails : list Call -> Call -> bool :=
  fun log _ => match log with [] => false | _ :: _ => true end.

(** No regular expression source compiles. *)
Definition no_regexp : string -> bool := fun _ => false.

(** A fill request without any field. *)
Definition no_fields : FillArgs :=
  mkFillArgs None None None None None None None None None.

(** The session after close session succeeded. *)
Definition released : State := mkState None None [call (BrowserClose 1%nat)].

(** A task with a single synonym. *)
Definition email_task : Task := mkTask "Email" (Some "x@y.com") ["Email"].

(** The session after the email was filled through its [id] attribute. *)
Definition email_filled : State :=
  mkState (Some 1%nat) (Some 2%nat)
          [ call (Fill 2%nat (getByLabel (mkRegExp "^Email$" "i")) "x@y.com" 1000);
            call (Fill 2%nat (getByPlaceholder (mkRegExp "Email" "i")) "x@y.com" 1000);
            call (Fill 2%nat
                       (first (locator ("input[name*=" ++ dq ++ "email" ++ dq ++ "]")))
                       "x@y.com" 1000);
            call (Fill 2%nat
                       (first (locator ("input[id*=" ++ dq ++ "email" ++ dq ++ "]")))
                       "x@y.com" 1000) ].

(** Every call resolves, except the settle delays. *)
Definition clicks_only : list Call -> Call -> bool :=
  fun _ c => match c with call (WaitForTimeout _ _) => false | _ => true end.

(** The session after five clicks on "Sign Up", each followed by a
    rejected settle delay. *)
Definition clicked_five_times : State :=
  mkState (Some 1%nat) (Some 2%nat)
          [ call (Click 2%nat (getByRole "button" (mkRegExp "Sign Up" "i")) 2000);
            call (WaitForTimeout 2%nat 600);
            call (Click 2%nat (getByRole "link" (mkRegExp "Sign Up" "i")) 2000);
            call (WaitForTimeout 2%nat 600);
            call (Click 2%nat (getByText "Sign Up") 2000);
            call (WaitForTimeout 2%nat 600);
            call (PageClick 2%nat ("text=" ++ dq ++ "Sign Up" ++ dq) 2000);
            call (WaitForTimeout 2%nat 600);
            call (PageClick 2%nat (":has-text(" ++ dq ++ "Sign Up" ++ dq ++ ")") 2000);
            call (WaitForTimeout 2%nat 600) ].

End Script.

(* ================================================================== *)
(** ** Vocabulary of the specification *)

(** [t] is a substring of [s]. *)
Definition occurs_in (t s : string) : Prop :=
  exists pre post, s = pre ++ t ++ post.

(** A hint term matches an element: the term, case-insensitively, is a
    substring of the element's visible text, or of the string form of
    its [className] (the class attribute, on an HTML element), or of its
    id attribute. *)
Definition hint_matches (el : Element.t) (t : string) : Prop :=
  occurs_in (toLowerCase t) (toLowerCase (Locate.element_text el))
  \/ occurs_in (toLowerCase t)
               (toLowerCase (ClassName.to_string (Element.className el)))
  \/ occurs_in (toLowerCase t) (toLowerCase (Element.id el)).

(** [n] is the number of entries of the hint list that match [el], an
    entry listed twice being counted twice. *)
Inductive match_count (el : Element.t) : list string -> nat -> Prop :=
| match_count_nil : match_count el [] 0
| match_count_hit t ts n :
    hint_matches el t -> match_count el ts n -> match_count el (t :: ts) (S n)
| match_count_miss t ts n :
    ~ hint_matches el t -> match_count el ts n -> match_count el (t :: ts) n.

(** [n] is the number of distinct hint terms that match [el]. *)
Definition distinct_match_count (el : Element.t) (terms : list string) (n : nat) : Prop :=
  exists l, NoDup l
            /\ (forall t, In t l <-> In t terms /\ hint_matches el t)
            /\ length l = n.

(** The reading of confidence as a count of distinct terms, for one call
    of locate elements: every returned candidate records an element whose
    number of distinct matching hint terms is the candidate's confidence. *)
Definition confidence_is_distinct_count
           (driver : Driver) (terms : list string) (st : State) : Prop :=
  forall r st' c,
    findElements driver terms st = (Return r, st') ->
    In c (Found.top r) ->
    exists p document selector el,
      page st = Some p
      /\ driver _ (calls st) (Evaluate p terms) = Resolved document
      /\ In el (Document.querySelectorAll document selector)
      /\ c = Locate.candidate terms el
      /\ distinct_match_count el terms (Candidate.confidence c).

(** The element has a rendered box. *)
Definition rendered (el : Element.t) : Prop :=
  (0 < DOMRect.width (Element.getBoundingClientRect el))%Q
  /\ (0 < DOMRect.height (Element.getBoundingClientRect el))%Q.

(** The document without the elements that have no rendered box. *)
Definition only_visible (document : Document.t) : Document.t :=
  Document.make (fun selector =>
                   filter Locate.visible (Document.querySelectorAll document selector)).

(** [a] may stand before [b] in the ranking: its confidence is higher, or
    the confidences are equal and its text is not shorter. *)
Definition ranks_before (a b : Candidate.t) : Prop :=
  (Candidate.confidence b < Candidate.confidence a)%nat
  \/ (Candidate.confidence a = Candidate.confidence b
      /\ (String.length (Candidate.text b) <= String.length (Candidate.text a))%nat).

(** [a] may stay before [b] under the comparison function [cmp]. *)
Definition before {A} (cmp : A -> A -> Z) (a b : A) : Prop := (cmp a b <= 0)%Z.

(** Every computation of the list throws when they are run one after the
    other from [st], and [st'] is the state they leave. *)
Inductive all_fail {A} : list (M A) -> State -> State -> Prop :=
| all_fail_nil st : all_fail [] st st
| all_fail_cons a rest st e st1 st2 :
    a st = (Throw e, st1) -> all_fail rest st1 st2 -> all_fail (a :: rest) st st2.

(** The action throws the precondition error and leaves the state, hence
    the log of driver calls, as it was. *)
Definition fails_uninitialized {A} (m : M A) (st : State) : Prop :=
  m st = (Throw not_initialized, st).

(** The state after one more driver call. *)
Definition logged (st : State) (c : Call) : State :=
  mkState (browser st) (page st) (calls st ++ [c])%list.

(** The task has a value. *)
Definition has_value (t : Task) : bool :=
  match value t with Some _ => true | None => false end.

(** The computation leaves the two module variables as they are and adds
    at most [n] calls to the log, all of them accepted by [allowed]. *)
Definition within {A} (n : nat) (allowed : Call -> bool) (m : M A) : Prop :=
  forall st,
    browser (snd (m st)) = browser st
    /\ page (snd (m st)) = page st
    /\ exists l, calls (snd (m st)) = (calls st ++ l)%list
                 /\ (length l <= n)%nat
                 /\ forallb allowed l = true.

Definition any_call : Call -> bool := fun _ => true.

(** The calls of the text strategies of click_element and their settle delay. *)
Definition is_text_click (c : Call) : bool :=
  match c with
  | call (Click _ _ _) | call (PageClick _ _ _) | call (WaitForTimeout _ _) => true
  | _ => false
  end.

(** The calls of the fill strategies. *)
Definition is_fill_call (c : Call) : bool :=
  match c with
  | call (Fill _ _ _ _) | call (Count _ _) | call (GetAttribute _ _ _) => true
  | _ => false
  end.

Definition is_browser_close (c : Call) : bool :=
  match c with call (BrowserClose _) => true | _ => false end.

(** The calls of fill_form_fields: the fill strategies and the per-field delay. *)
Definition is_form_call (c : Call) : bool :=
  is_fill_call c || match c with call (WaitForTimeout _ _) => true | _ => false end.

(** The most calls that the loop over [ts] can make: seven for each
    synonym of a task and one for its delay. *)
Definition call_budget (ts : list Task) : nat :=
  fold_right (fun t n => (7 * length (labels t) + 1 + n)%nat) 0%nat ts.

(** The list holds [c] at two positions at least. *)
Inductive occurs_twice {A} (c : A) : list A -> Prop :=
| occurs_twice_here l : In c l -> occurs_twice c (c :: l)
| occurs_twice_later x l : occurs_twice c l -> occurs_twice c (x :: l).

(** A page handle is held only together with a browser handle. *)
Definition session_consistent (st : State) : Prop :=
  page st <> None -> browser st <> None.

(** Every character of the string is a word character. *)
Fixpoint all_word (s : string) : bool :=
  match s with
  | EmptyString => true
  | String c r => is_word c && all_word r
  end.

(* ------------------------------------------------------------------ *)
(** *** The strategies, in the words of the specification

    The strategies of act/click and of fill form are described here by
    the driver calls they make and by the answers of the driver, apart
    from the closures of the tools; the tools are compared with this
    description. *)

(** The five strategies of act/click, in their order. *)
Inductive ClickStrategy : Type :=
| ButtonRole | LinkRole | VisibleText | TextSelector | HasTextSelector.

Definition click_strategies : list ClickStrategy :=
  [ButtonRole; LinkRole; VisibleText; TextSelector; HasTextSelector].

(** The regular expression source a click strategy compiles, if any. *)
Definition click_pattern (s : ClickStrategy) (text : string) : option string :=
  match s with
  | ButtonRole | LinkRole => Some text
  | VisibleText | TextSelector | HasTextSelector => None
  end.

(** The driver call of a click strategy, with its 2000 ms timeout. *)
Definition click_call (p : Handle) (text : string) (s : ClickStrategy) : Op unit :=
  match s with
  | ButtonRole => Click p (getByRole "button" (mkRegExp text "i")) 2000
  | LinkRole => Click p (getByRole "link" (mkRegExp text "i")) 2000
  | VisibleText => Click p (getByText text) 2000
  | TextSelector => PageClick p ("text=" ++ dq ++ text ++ dq) 2000
  | HasTextSelector => PageClick p (":has-text(" ++ dq ++ text ++ dq ++ ")") 2000
  end.

(** The five strategies of fill form for one synonym, in their order. *)
Inductive FillStrategy : Type :=
| AccessibleLabel | Placeholder | NameContains | IdContains | LabelElement.

Definition fill_strategies : list FillStrategy :=
  [AccessibleLabel; Placeholder; NameContains; IdContains; LabelElement].

(** The attempts for a field, synonym-major: every synonym in its
    declared order, and for each synonym the five strategies in theirs. *)
Definition cross (labels : list string) : list (string * FillStrategy) :=
  flat_map (fun lbl => map (fun s => (lbl, s)) fill_strategies) labels.

(** [k] is [s] without its white space characters. *)
Inductive without_spaces : string -> string -> Prop :=
| without_spaces_nil : without_spaces "" ""
| without_spaces_skip c s k :
    is_space c = true -> without_spaces s k -> without_spaces (String c s) k
| without_spaces_keep c s k :
    is_space c = false -> without_spaces s k ->
    without_spaces (String c s) (String c k).

(** [k] is the normalized key of a synonym: the synonym in lower case,
    without its white space. *)
Definition normalized_key (lbl k : string) : Prop :=
  without_spaces (toLowerCase lbl) k.

(** The regular expression source a fill strategy compiles, if any:
    the synonym between anchors for the accessible label, the synonym
    itself for the placeholder. *)
Definition fill_pattern (s : FillStrategy) (lbl : string) : option string :=
  match s with
  | AccessibleLabel => Some ("^" ++ lbl ++ "$")
  | Placeholder => Some lbl
  | NameContains | IdContains | LabelElement => None
  end.

(** The locator a fill strategy fills at once, for the synonym [lbl] and
    its normalized key [k]; the manual label lookup has none. *)
Definition fill_locator (s : FillStrategy) (lbl k : string) : option Locator :=
  match s with
  | AccessibleLabel => Some (getByLabel (mkRegExp ("^" ++ lbl ++ "$") "i"))
  | Placeholder => Some (getByPlaceholder (mkRegExp lbl "i"))
  | NameContains => Some (first (locator ("input[name*=" ++ dq ++ k ++ dq ++ "]")))
  | IdContains => Some (first (locator ("input[id*=" ++ dq ++ k ++ dq ++ "]")))
  | LabelElement => None
  end.

(** The first label element whose text contains the synonym. *)
Definition label_element (lbl : string) : Locator :=
  first (locator ("label:has-text(" ++ dq ++ lbl ++ dq ++ ")")).

(** The first input under the parent of that label element. *)
Definition nested_input (lbl : string) : Locator :=
  first (sub_locator (sub_locator (label_element lbl) "..") "input").

(** Items are tried in order from [st]; the run stops at the first one
    whose outcome is success.  [first_ok outcome xs st ok st']: the run
    over [xs] ends in [st'], with success [ok]. *)
Inductive first_ok {X} (outcome : X -> State -> bool -> State -> Prop)
  : list X -> State -> bool -> State -> Prop :=
| first_ok_none st : first_ok outcome [] st false st
| first_ok_hit x rest st st' :
    outcome x st true st' -> first_ok outcome (x :: rest) st true st'
| first_ok_miss x rest st st1 ok st' :
    outcome x st false st1 -> first_ok outcome rest st1 ok st' ->
    first_ok outcome (x :: rest) st ok st'.

(** [s] is the strings of the list with [sep] between them. *)
Inductive joined (sep : string) : list string -> string -> Prop :=
| joined_nil : joined sep [] ""
| joined_one x : joined sep [x] x
| joined_more x y rest s :
    joined sep (y :: rest) s -> joined sep (x :: y :: rest) (x ++ sep ++ s).

(** The computation ends in [st'], returning when [ok] and throwing otherwise. *)
Definition runs_as {A} (m : M A) (st : State) (ok : bool) (st' : State) : Prop :=
  match m st with
  | (Return _, s) => ok = true /\ s = st'
  | (Throw _, s) => ok = false /\ s = st'
  end.

(** A call of the log that clicks through a text strategy. *)
Definition is_strategy_click (c : Call) : bool :=
  match c with
  | call (Click _ _ _) | call (PageClick _ _ _) => true
  | _ => false
  end.

Section Outcomes.

Variable driver : Driver.
Variable regexp_compiles : string -> bool.

(** The driver resolves the call made in [st] with [r], leaving [st']. *)
Definition resolves {R} (op : Op R) (st : State) (r : R) (st' : State) : Prop :=
  driver R (calls st) op = Resolved r /\ st' = logged st (call op).

(** The driver rejects the call made in [st], leaving [st']. *)
Definition rejects {R} (op : Op R) (st st' : State) : Prop :=
  (exists e, driver R (calls st) op = Rejected e) /\ st' = logged st (call op).

(** The call made in [st] leaves [st'], and [ok] tells that it resolved. *)
Definition settles {R} (op : Op R) (st : State) (ok : bool) (st' : State) : Prop :=
  st' = logged st (call op)
  /\ ok = match driver R (calls st) op with Resolved _ => true | Rejected _ => false end.

(** The call made in [st] was answered by the driver as the call shows. *)
Definition resolved_at (log : list Call) (c : Call) : bool :=
  match c with
  | call op => match driver _ log op with Resolved _ => true | Rejected _ => false end
  end.

(** One strategy of act/click from [st].  It fails without a call when
    its regular expression does not compile, and fails when its click is
    rejected; when the click resolved, the 600 ms settle delay follows,
    and the strategy succeeds when the delay resolves and fails when it
    is rejected. *)
Inductive click_outcome (p : Handle) (text : string) (s : ClickStrategy) (st : State)
  : bool -> State -> Prop :=
| click_uncompilable src :
    click_pattern s text = Some src -> regexp_compiles src = false ->
    click_outcome p text s st false st
| click_rejected st1 :
    (forall src, click_pattern s text = Some src -> regexp_compiles src = true) ->
    rejects (click_call p text s) st st1 ->
    click_outcome p text s st false st1
| click_delay_rejected st1 st2 :
    (forall src, click_pattern s text = Some src -> regexp_compiles src = true) ->
    resolves (click_call p text s) st tt st1 ->
    rejects (WaitForTimeout p 600) st1 st2 ->
    click_outcome p text s st false st2
| click_settled st1 st2 :
    (forall src, click_pattern s text = Some src -> regexp_compiles src = true) ->
    resolves (click_call p text s) st tt st1 ->
    resolves (WaitForTimeout p 600) st1 tt st2 ->
    click_outcome p text s st true st2.

(** The claim that act/click fails only after all five strategies
    failed, for one text on one state: when the action throws, every
    click that a strategy made was rejected. *)
Definition fails_only_after_all_clicks_fail (text : string) (st : State) : Prop :=
  forall e st' pre c post,
    clickElement driver regexp_compiles (Some text) None None st = (Throw e, st') ->
    calls st' = (pre ++ c :: post)%list ->
    is_strategy_click c = true ->
    resolved_at pre c = false.

(** The input that the manual label lookup fills, read in [st]: the
    element whose id is the label's [for] attribute when the driver
    gives a non-empty one, otherwise (no attribute, an empty one, or a
    rejected read) the first input nested under the parent of the label. *)
Definition label_target (p : Handle) (lbl : string) (st : State) : Locator :=
  match driver _ (calls st) (GetAttribute p (label_element lbl) "for") with
  | Resolved (Some (String c f)) => locator ("#" ++ String c f)
  | _ => nested_input lbl
  end.

(** One strategy of fill form for one synonym, from [st], with the 1000
    ms timeout of every fill.  The first four strategies fail without a
    call when their regular expression does not compile, and otherwise
    make one fill, which decides.  The manual label lookup counts the
    label elements and fails unless there is one; it then reads the
    [for] attribute and fills the input that [label_target] gives. *)
Inductive fill_outcome (p : Handle) (v : string) (x : string * FillStrategy) (st : State)
  : bool -> State -> Prop :=
| fill_uncompilable src :
    fill_pattern (snd x) (fst x) = Some src -> regexp_compiles src = false ->
    fill_outcome p v x st false st
| fill_direct k l ok st1 :
    (forall src, fill_pattern (snd x) (fst x) = Some src -> regexp_compiles src = true) ->
    normalized_key (fst x) k ->
    fill_locator (snd x) (fst x) k = Some l ->
    settles (Fill p l v 1000) st ok st1 ->
    fill_outcome p v x st ok st1
| fill_count_rejected st1 :
    snd x = LabelElement ->
    rejects (Count p (label_element (fst x))) st st1 ->
    fill_outcome p v x st false st1
| fill_no_label st1 :
    snd x = LabelElement ->
    resolves (Count p (label_element (fst x))) st 0%nat st1 ->
    fill_outcome p v x st false st1
| fill_through_label n st1 ok st3 :
    snd x = LabelElement ->
    resolves (Count p (label_element (fst x))) st (S n) st1 ->
    settles (Fill p (label_target p (fst x) st1) v 1000)
            (logged st1 (call (GetAttribute p (label_element (fst x)) "for"))) ok st3 ->
    fill_outcome p v x st ok st3.

(** The per-field delay from [st]: no call when the delay is zero,
    otherwise a [waitForTimeout] that resolves. *)
Definition settled (p : Handle) (delay : Z) (st st' : State) : Prop :=
  (delay = 0%Z /\ st' = st)
  \/ (delay <> 0%Z /\ resolves (WaitForTimeout p delay) st tt st').

(** The entries of the report for the tasks [ts] from [st]: a task
    without a value gives no entry and makes no call; a task with a value
    runs its attempts synonym-major up to the first success, gives the
    entry [key:ok] or [key:missing], and is followed by the delay. *)
Inductive report_run (p : Handle) (delay : Z)
  : list Task -> State -> list string -> State -> Prop :=
| report_run_nil st : report_run p delay [] st [] st
| report_run_skip t ts st es st' :
    value t = None -> report_run p delay ts st es st' ->
    report_run p delay (t :: ts) st es st'
| report_run_field t v ts st ok st1 st2 es st' :
    value t = Some v ->
    first_ok (fill_outcome p v) (cross (labels t)) st ok st1 ->
    settled p delay st1 st2 ->
    report_run p delay ts st2 es st' ->
    report_run p delay (t :: ts) st
               ((key t ++ ":" ++ (if ok then "ok" else "missing")) :: es) st'.

(** The closure of [click_attempts] that stands for a strategy. *)
Definition click_closure (p : Handle) (text : string) (s : ClickStrategy) : M unit :=
  match s with
  | ButtonRole =>
      re <- new_RegExp regexp_compiles text "i" ;;
      await driver (Click p (getByRole "button" re) 2000)
  | LinkRole =>
      re <- new_RegExp regexp_compiles text "i" ;;
      await driver (Click p (getByRole "link" re) 2000)
  | VisibleText => await driver (Click p (getByText text) 2000)
  | TextSelector => await driver (PageClick p ("text=" ++ dq ++ text ++ dq) 2000)
  | HasTextSelector =>
      await driver (PageClick p (":has-text(" ++ dq ++ text ++ dq ++ ")") 2000)
  end.

(** The closure of [fill_attempts] that stands for a synonym and a strategy. *)
Definition fill_closure (p : Handle) (v : string) (x : string * FillStrategy) : M unit :=
  match snd x with
  | AccessibleLabel => by_label driver regexp_compiles p (fst x) v
  | Placeholder => by_placeholder driver regexp_compiles p (fst x) v
  | NameContains => by_name driver p (key_of (fst x)) v
  | IdContains => by_id driver p (key_of (fst x)) v
  | LabelElement => by_label_element driver p (fst x) v
  end.

(** The last call of the log of [st] was rejected by the driver with [msg]. *)
Definition last_rejected (st : State) (msg : string) : Prop :=
  exists pre R (op : Op R),
    calls st = (pre ++ [call op])%list /\ driver R pre op = Rejected msg.

(** When the computation throws, the message is one that [own] accepts
    or the rejection message of the last call made. *)
Definition throws_cause {A} (own : string -> Prop) (m : M A) : Prop :=
  forall st e st', m st = (Throw e, st') -> own e \/ last_rejected st' e.

(** When the tool throws, the message is [pre] followed by a cause: a
    message that [own] accepts, or the rejection message of the last
    call made. *)
Definition throws_prefixed {A} (pre : string) (own : string -> Prop) (m : M A) : Prop :=
  forall st e st',
    m st = (Throw e, st') ->
    exists msg, e = pre ++ msg /\ (own msg \/ last_rejected st' msg).

(** The same for a tool that first requires the page: it throws the
    precondition error, on a state without page that it leaves as it
    is, or [pre] followed by a cause. *)
Definition throws_guarded {A} (pre : string) (own : string -> Prop) (m : M A) : Prop :=
  forall st e st',
    m st = (Throw e, st') ->
    (page st = None /\ e = not_initialized /\ st' = st)
    \/ (exists msg, e = pre ++ msg /\ (own msg \/ last_rejected st' msg)).

End Outcomes.

(* ================================================================== *)
(** ** Strings *)

Lemma startsWith_spec (s t : string) :
  startsWith s t = true <-> exists post, s = t ++ post.
Proof.
  revert s; induction t as [|b t IH]; intros s.
  - split; [intros _; now exists s | intros _; destruct s; reflexivity].
  - destruct s as [|a s]; simpl.
    + split; [discriminate | intros [post H]; discriminate].
    + rewrite andb_true_iff, Ascii.eqb_eq, IH. split.
      * intros [-> [post ->]]. now exists post.
      * intros [post H]. injection H as -> ->. split; [reflexivity | now exists post].
Qed.

Lemma append_assoc (a b c : string) : (a ++ b) ++ c = a ++ b ++ c.
Proof. induction a as [|x a IH]; simpl; [reflexivity | now rewrite IH]. Qed.

Lemma append_nil_r (a : string) : a ++ "" = a.
Proof. induction a as [|x a IH]; simpl; [reflexivity | now rewrite IH]. Qed.

Lemma includes_nil (t : string) : includes "" t = startsWith "" t || false.
Proof. reflexivity. Qed.

Lemma includes_cons (a : ascii) (s t : string) :
  includes (String a s) t = startsWith (String a s) t || includes s t.
Proof. reflexivity. Qed.

Lemma includes_spec (s t : string) : includes s t = true <-> occurs_in t s.
Proof.
  induction s as [|a s IH]; [rewrite includes_nil | rewrite includes_cons].
  - rewrite orb_false_r, startsWith_spec. split.
    + intros [post H]. now exists "", post.
    + intros [pre [post H]]. destruct pre; [now exists post | discriminate].
  - rewrite orb_true_iff, startsWith_spec, IH. split.
    + intros [[post H] | [pre [post H]]].
      * now exists "", post.
      * exists (String a pre), post. simpl. now rewrite H.
    + intros [pre [post H]]. destruct pre as [|c pre]; simpl in H.
      * left. now exists post.
      * right. injection H as _ H. now exists pre, post.
Qed.

Lemma includes_empty (s : string) : includes s "" = true.
Proof. apply includes_spec. now exists "", s. Qed.

Lemma occurs_in_empty (t : string) : occurs_in t "" -> t = "".
Proof.
  intros [pre [post H]]. destruct pre; [|discriminate].
  destruct t; [reflexivity | discriminate].
Qed.

Lemma truthy_false (s : string) : truthy s = false -> s = "".
Proof. destruct s; [reflexivity | discriminate]. Qed.

(* ================================================================== *)
(** ** Matching and counting *)

(** The filter predicate of the in-page function decides [hint_matches]:
    the truthiness guards on [className] and [id] change nothing. *)
Lemma term_matches_spec (el : Element.t) (t : string) :
  Locate.term_matches el (toLowerCase (Locate.element_text el)) t = true
  <-> hint_matches el t.
Proof.
  unfold Locate.term_matches, hint_matches.
  rewrite !orb_true_iff, !andb_true_iff, !includes_spec. split.
  - intros [[H | [_ H]] | [_ H]]; auto.
  - intros [H | [H | H]].
    + auto.
    + destruct (ClassName.truthy (Element.className el)) eqn:E; [auto|].
      destruct (Element.className el) as [cls|]; [|discriminate E].
      apply truthy_false in E. simpl in H. rewrite E in H. apply occurs_in_empty in H.
      left; left. rewrite H. apply includes_spec, includes_empty.
    + destruct (truthy (Element.id el)) eqn:E; [auto|].
      apply truthy_false in E. rewrite E in H. apply occurs_in_empty in H.
      left; left. rewrite H. apply includes_spec, includes_empty.
Qed.

Lemma matched_terms_count (el : Element.t) (terms : list string) :
  match_count el terms (length (Locate.matched_terms terms el)).
Proof.
  unfold Locate.matched_terms.
  induction terms as [|t ts IH]; simpl; [constructor|].
  destruct (Locate.term_matches el _ t) eqn:E; simpl.
  - apply match_count_hit; [now apply term_matches_spec | exact IH].
  - apply match_count_miss; [|exact IH].
    intros H. apply term_matches_spec in H. congruence.
Qed.

Lemma matched_terms_distinct (el : Element.t) (terms : list string) :
  NoDup terms ->
  distinct_match_count el terms (length (Locate.matched_terms terms el)).
Proof.
  intros ND. exists (Locate.matched_terms terms el). repeat split.
  - now apply NoDup_filter.
  - apply filter_In in H. tauto.
  - apply filter_In in H. now apply term_matches_spec.
  - intros [H1 H2]. apply filter_In. split; [exact H1 | now apply term_matches_spec].
Qed.

Lemma distinct_match_count_unique (el : Element.t) (terms : list string) (n m : nat) :
  distinct_match_count el terms n -> distinct_match_count el terms m -> n = m.
Proof.
  intros [l [Nl [Hl <-]]] [k [Nk [Hk <-]]].
  apply Permutation_length, NoDup_Permutation; trivial.
  intros t. rewrite Hl, Hk. tauto.
Qed.

Lemma visible_rendered (el : Element.t) : Locate.visible el = true <-> rendered el.
Proof.
  unfold Locate.visible, Locate.positive, rendered.
  rewrite andb_true_iff, !negb_true_iff.
  assert (P : forall q : Q, Qle_bool q 0 = false <-> (0 < q)%Q).
  { intros q. split.
    - intros E. apply Qnot_le_lt. intros L. apply Qle_bool_iff in L. congruence.
    - intros L. destruct (Qle_bool q 0) eqn:E; [|reflexivity].
      apply Qle_bool_iff in E. now apply Qlt_not_le in L. }
  now rewrite !P.
Qed.

Lemma visit_In (terms : list string) (el : Element.t) (c : Candidate.t) :
  In c (Locate.visit terms el) ->
  Locate.visible el = true /\ c = Locate.candidate terms el
  /\ Locate.matched_terms terms el <> [].
Proof.
  unfold Locate.visit. destruct (Locate.visible el); [|intros []].
  destruct (Locate.matched_terms terms el) eqn:E; [intros []|].
  intros [<- | []]. repeat split. discriminate.
Qed.

Lemma collect_In (document : Document.t) (terms : list string) (c : Candidate.t) :
  In c (Locate.collect document terms) ->
  exists selector el,
    In selector Locate.selectors
    /\ In el (Document.querySelectorAll document selector)
    /\ Locate.visible el = true
    /\ c = Locate.candidate terms el.
Proof.
  unfold Locate.collect. intros H.
  apply in_flat_map in H. destruct H as [selector [Hs H]].
  apply in_flat_map in H. destruct H as [el [He H]].
  apply visit_In in H. destruct H as [V [-> _]].
  now exists selector, el.
Qed.

Lemma visit_filter_visible (terms : list string) (els : list Element.t) :
  flat_map (Locate.visit terms) (filter Locate.visible els)
  = flat_map (Locate.visit terms) els.
Proof.
  induction els as [|el els IH]; simpl; [reflexivity|].
  destruct (Locate.visible el) eqn:V; simpl.
  - now rewrite IH.
  - unfold Locate.visit at 2. now rewrite V.
Qed.

Lemma collect_only_visible (document : Document.t) (terms : list string) :
  Locate.collect (only_visible document) terms = Locate.collect document terms.
Proof.
  unfold Locate.collect. apply flat_map_ext. intros selector.
  apply visit_filter_visible.
Qed.

(* ================================================================== *)
(** ** Sorting with a comparison function *)

Section Sorting.

Variable A : Type.
Variable cmp : A -> A -> Z.

Hypothesis cmp_total : forall a b, (0 < cmp a b)%Z -> before cmp b a.
Hypothesis cmp_trans : forall a b c, before cmp a b -> before cmp b c -> before cmp a c.

Lemma insert_perm (x : A) (l : list A) : Permutation (Locate.insert cmp x l) (x :: l).
Proof.
  induction l as [|y l IH]; simpl; [reflexivity|].
  destruct (cmp x y <=? 0)%Z; [reflexivity|].
  rewrite IH. apply perm_swap.
Qed.

Lemma sort_perm (l : list A) : Permutation (Locate.sort cmp l) l.
Proof.
  induction l as [|x l IH]; simpl; [reflexivity|].
  unfold Locate.sort in *. now rewrite insert_perm, IH.
Qed.

Lemma insert_sorted (x : A) (l : list A) :
  StronglySorted (before cmp) l -> StronglySorted (before cmp) (Locate.insert cmp x l).
Proof.
  induction 1 as [|y l S IH F]; simpl.
  - repeat constructor.
  - destruct (cmp x y <=? 0)%Z eqn:E.
    + apply Z.leb_le in E. constructor; [now constructor|].
      constructor; [exact E|].
      eapply Forall_impl; [|exact F]. intros z Hz. now apply cmp_trans with y.
    + apply Z.leb_gt in E. constructor; [exact IH|].
      apply Forall_forall. intros z Hz.
      apply (Permutation_in _ (insert_perm x l)) in Hz.
      destruct Hz as [<- | Hz]; [now apply cmp_total|].
      revert z Hz. now apply Forall_forall.
Qed.

Lemma sort_sorted (l : list A) : StronglySorted (before cmp) (Locate.sort cmp l).
Proof.
  induction l as [|x l IH]; simpl; [constructor|].
  now apply insert_sorted.
Qed.

End Sorting.

Lemma firstn_incl {A} (n : nat) (l : list A) (x : A) : In x (firstn n l) -> In x l.
Proof.
  intros H. rewrite <- (firstn_skipn n l). apply in_or_app. now left.
Qed.

Lemma firstn_sorted {A} (R : A -> A -> Prop) (n : nat) (l : list A) :
  StronglySorted R l -> StronglySorted R (firstn n l).
Proof.
  intros S. revert n. induction S as [|x l S IH F]; intros [|n]; simpl; try constructor.
  - apply IH.
  - apply Forall_forall. intros y Hy. apply firstn_incl in Hy.
    revert y Hy. now apply Forall_forall.
Qed.

Lemma sorted_positions {A} (R : A -> A -> Prop) (l : list A) :
  StronglySorted R l ->
  forall i j a b, (i < j)%nat -> nth_error l i = Some a -> nth_error l j = Some b -> R a b.
Proof.
  induction 1 as [|x l S IH F]; intros i j a b Lt Hi Hj.
  - destruct i; discriminate.
  - destruct j as [|j]; [lia|]. simpl in Hj. destruct i as [|i]; simpl in Hi.
    + injection Hi as <-. apply nth_error_In in Hj.
      revert b Hj. now apply Forall_forall.
    + apply (IH i j); trivial. lia.
Qed.

Lemma compare_ranks (a b : Candidate.t) :
  (Locate.compare a b <= 0)%Z <-> ranks_before a b.
Proof.
  unfold Locate.compare, ranks_before.
  destruct (Candidate.confidence a =? Candidate.confidence b)%nat eqn:E; simpl.
  - apply Nat.eqb_eq in E. lia.
  - apply Nat.eqb_neq in E. lia.
Qed.

Lemma page_function_sorted (document : Document.t) (terms : list string) :
  StronglySorted ranks_before (Locate.page_function document terms).
Proof.
  assert (S : StronglySorted (before Locate.compare)
                             (Locate.page_function document terms)).
  { apply sort_sorted; unfold before; intros *; rewrite ?compare_ranks.
    - intros H. assert (N : ~ ranks_before a b) by (rewrite <- compare_ranks; lia).
      unfold ranks_before in *. lia.
    - unfold ranks_before. lia. }
  induction S as [|x l S IH F]; constructor; [exact IH|].
  eapply Forall_impl; [|exact F]. intros y. apply compare_ranks.
Qed.

Lemma page_function_In (document : Document.t) (terms : list string) (c : Candidate.t) :
  In c (Locate.page_function document terms) <-> In c (Locate.collect document terms).
Proof.
  unfold Locate.page_function. split; apply Permutation_in.
  - apply sort_perm.
  - symmetry. apply sort_perm.
Qed.

Lemma flat_map_nil {A B} (f : A -> list B) (l : list A) :
  (forall x, In x l -> f x = []) -> flat_map f l = [].
Proof.
  induction l as [|x l IH]; simpl; intros H; [reflexivity|].
  rewrite (H x) by now left. apply IH. intros y Hy. apply H. now right.
Qed.

Lemma filter_nil {A} (f : A -> bool) (l : list A) :
  (forall x, In x l -> f x = false) -> filter f l = [].
Proof.
  induction l as [|x l IH]; simpl; intros H; [reflexivity|].
  rewrite (H x) by now left. apply IH. intros y Hy. apply H. now right.
Qed.

Lemma visit_unrendered (terms : list string) (el : Element.t) :
  ~ rendered el -> Locate.visit terms el = [].
Proof.
  intros N. unfold Locate.visit. destruct (Locate.visible el) eqn:V; [|reflexivity].
  apply visible_rendered in V. contradiction.
Qed.

Lemma visit_unmatched (terms : list string) (el : Element.t) :
  (forall t, In t terms -> ~ hint_matches el t) -> Locate.visit terms el = [].
Proof.
  intros N. unfold Locate.visit, Locate.matched_terms.
  rewrite filter_nil; [now destruct (Locate.visible el)|].
  intros t Ht. destruct (Locate.term_matches el _ t) eqn:E; [|reflexivity].
  apply term_matches_spec in E. now apply N in E.
Qed.

(* ================================================================== *)
(** ** Properties of the tools *)

Ltac unfold_monad :=
  unfold bind, try_catch, ret, throw, require_page, get_browser, set_browser, set_page.

Section Properties.

Variable driver : Driver.
Variable regexp_compiles : string -> bool.
Variable SCREEN_DIR : string.

Lemma await_resolved {R} (op : Op R) (st : State) (r : R) :
  driver R (calls st) op = Resolved r ->
  await driver op st = (Return r, logged st (call op)).
Proof. intros H. unfold await. now rewrite H. Qed.

Lemma await_rejected {R} (op : Op R) (st : State) (e : string) :
  driver R (calls st) op = Rejected e ->
  await driver op st = (Throw e, logged st (call op)).
Proof. intros H. unfold await. now rewrite H. Qed.

(* ---------------------------------------------------------------- *)
(** *** The session precondition *)

(** close_browser on a closed session: the guard [if (browser)] is not
    taken and the status string is returned. *)
Lemma closeBrowser_closed (st : State) :
  browser st = None -> closeBrowser driver st = (Return "Browser not open", st).
Proof.
  intros H. unfold closeBrowser. unfold_monad. now rewrite H.
Qed.

(** close_browser on an open session whose browser closes: both
    variables are reset. *)
Lemma closeBrowser_open (st : State) (b : Handle) :
  browser st = Some b ->
  driver unit (calls st) (BrowserClose b) = Resolved tt ->
  closeBrowser driver st
  = (Return "Browser closed",
     mkState None None (calls st ++ [call (BrowserClose b)])%list).
Proof.
  intros H D. unfold closeBrowser. unfold_monad. rewrite H.
  now rewrite (await_resolved _ _ _ D).
Qed.

(** C1 (amended): while the page handle is uninitialized, navigate,
    capture, locate elements, act/click and fill form each throw the
    precondition error before any driver call; close session on a closed
    session does not throw: it returns ["Browser not open"], also without
    any driver call. *)
Theorem closed_session_precondition :
  forall st : State,
    page st = None ->
    (forall url, fails_uninitialized (openURL driver url) st)
    /\ (forall label, fails_uninitialized (takeScreenshot driver SCREEN_DIR label) st)
    /\ (forall terms, fails_uninitialized (findElements driver terms) st)
    /\ (forall text x y,
           fails_uninitialized (clickElement driver regexp_compiles text x y) st)
    /\ (forall a, fails_uninitialized (fillFormFields driver regexp_compiles a) st)
    /\ (browser st = None -> closeBrowser driver st = (Return "Browser not open", st)).
Proof.
  intros st H. unfold fails_uninitialized.
  repeat split; intros;
    try (unfold openURL, takeScreenshot, findElements, clickElement, fillFormFields;
         unfold_monad; now rewrite H).
  now apply closeBrowser_closed.
Qed.

(* ---------------------------------------------------------------- *)
(** *** find_elements *)

Lemma findElements_open (terms : list string) (st : State) (p : Handle)
      (document : Document.t) :
  page st = Some p ->
  driver _ (calls st) (Evaluate p terms) = Resolved document ->
  findElements driver terms st
  = (Return (Locate.result (Locate.page_function document terms)),
     logged st (call (Evaluate p terms))).
Proof.
  intros H D. unfold findElements. unfold_monad. rewrite H.
  now rewrite (await_resolved _ _ _ D).
Qed.

Lemma findElements_returns (terms : list string) (st st' : State) (r : Found.t) :
  findElements driver terms st = (Return r, st') ->
  exists p document,
    page st = Some p
    /\ driver _ (calls st) (Evaluate p terms) = Resolved document
    /\ r = Locate.result (Locate.page_function document terms).
Proof.
  unfold findElements. unfold_monad. destruct (page st) as [p|]; [|discriminate].
  unfold await. destruct (driver _ (calls st) (Evaluate p terms)) as [document|e] eqn:D.
  - intros E. injection E as <- _. now exists p, document.
  - discriminate.
Qed.

Lemma result_In (elements : list Candidate.t) (c : Candidate.t) :
  In c (Found.top (Locate.result elements)) -> In c elements.
Proof. exact (firstn_incl 6 elements c). Qed.

(** C3 (amended): every candidate returned by locate elements is the
    record of an element found by a whitelisted selector, and its
    confidence is the number of entries of the hint list that match
    that element (substring of the visible text, of the string form of
    its [className], which is the class attribute on an HTML element, or
    of the id attribute, case-insensitively, with no weight by
    attribute); an entry listed twice counts twice.  When the hint terms
    are pairwise distinct, this is the count of distinct terms matched. *)
Theorem confidence_counts_matching_entries :
  forall (terms : list string) (st st' : State) (r : Found.t) (c : Candidate.t),
    findElements driver terms st = (Return r, st') ->
    In c (Found.top r) ->
    exists p document selector el,
      page st = Some p
      /\ driver _ (calls st) (Evaluate p terms) = Resolved document
      /\ In selector Locate.selectors
      /\ In el (Document.querySelectorAll document selector)
      /\ c = Locate.candidate terms el
      /\ match_count el terms (Candidate.confidence c)
      /\ (NoDup terms -> distinct_match_count el terms (Candidate.confidence c)).
Proof.
  intros terms st st' r c F Hc.
  apply findElements_returns in F. destruct F as [p [document [Hp [D ->]]]].
  apply result_In, page_function_In, collect_In in Hc.
  destruct Hc as [selector [el [Hs [He [_ ->]]]]].
  exists p, document, selector, el. repeat split; trivial.
  - apply matched_terms_count.
  - apply matched_terms_distinct.
Qed.

(** C4: in the list returned by locate elements, a candidate placed
    after another never has a higher confidence, and with equal
    confidence never has a longer text: higher confidence comes first,
    and among equal confidences the longer text comes first. *)
Theorem ranking_order :
  forall (terms : list string) (st st' : State) (r : Found.t)
         (i j : nat) (a b : Candidate.t),
    findElements driver terms st = (Return r, st') ->
    (i < j)%nat ->
    nth_error (Found.top r) i = Some a ->
    nth_error (Found.top r) j = Some b ->
    (Candidate.confidence b <= Candidate.confidence a)%nat
    /\ (Candidate.confidence a = Candidate.confidence b ->
        (String.length (Candidate.text b) <= String.length (Candidate.text a))%nat).
Proof.
  intros terms st st' r i j a b F Lt Hi Hj.
  apply findElements_returns in F. destruct F as [p [document [_ [_ ->]]]].
  assert (R : ranks_before a b).
  { refine (sorted_positions ranks_before _ _ i j a b Lt Hi Hj).
    apply firstn_sorted, page_function_sorted. }
  unfold ranks_before in R. lia.
Qed.

(** C5: an element without a rendered box adds nothing to the
    candidates, whatever it matches; the result of locate elements is
    the result on the document without such elements, and every
    returned candidate is the record of an element with positive width
    and height. *)
Theorem invisible_never_returned :
  forall (terms : list string) (st st' : State) (r : Found.t),
    findElements driver terms st = (Return r, st') ->
    exists p document,
      page st = Some p
      /\ driver _ (calls st) (Evaluate p terms) = Resolved document
      /\ r = Locate.result (Locate.page_function (only_visible document) terms)
      /\ (forall el, ~ rendered el -> Locate.visit terms el = [])
      /\ (forall c, In c (Found.top r) ->
            exists selector el,
              In selector Locate.selectors
              /\ In el (Document.querySelectorAll document selector)
              /\ rendered el
              /\ c = Locate.candidate terms el).
Proof.
  intros terms st st' r F.
  apply findElements_returns in F. destruct F as [p [document [Hp [D ->]]]].
  exists p, document. repeat split; trivial.
  - unfold Locate.page_function. now rewrite collect_only_visible.
  - intros el. apply visit_unrendered.
  - intros c Hc. apply result_In, page_function_In, collect_In in Hc.
    destruct Hc as [selector [el [Hs [He [V ->]]]]].
    exists selector, el. repeat split; trivial; now apply visible_rendered.
Qed.

(** C6: on an open session whose page evaluates the in-page function,
    locate elements returns at most 6 candidates and their count; when
    no rendered element found by the selectors matches a hint term, it
    returns the empty result with count 0, not an error. *)
Theorem at_most_six_candidates :
  forall (terms : list string) (st : State) (p : Handle) (document : Document.t),
    page st = Some p ->
    driver _ (calls st) (Evaluate p terms) = Resolved document ->
    exists r st',
      findElements driver terms st = (Return r, st')
      /\ (length (Found.top r) <= 6)%nat
      /\ Found.count r = length (Found.top r)
      /\ ((forall selector el,
              In selector Locate.selectors ->
              In el (Document.querySelectorAll document selector) ->
              ~ rendered el \/ (forall t, In t terms -> ~ hint_matches el t)) ->
          r = Found.make 0 []).
Proof.
  intros terms st p document Hp D.
  exists (Locate.result (Locate.page_function document terms)),
         (logged st (call (Evaluate p terms))).
  split; [now apply findElements_open|].
  split; [apply firstn_le_length|]. split; [reflexivity|].
  intros N. unfold Locate.page_function.
  replace (Locate.collect document terms) with (@nil Candidate.t); [reflexivity|].
  symmetry. unfold Locate.collect.
  apply flat_map_nil; intros selector Hs. apply flat_map_nil; intros el He.
  destruct (N selector el Hs He) as [U | U].
  - now apply visit_unrendered.
  - now apply visit_unmatched.
Qed.

(* ---------------------------------------------------------------- *)
(** *** click_element *)

(** A turn of the click loop that returns, returns the confirmation. *)
Lemma click_turn_returns (p : Handle) (text : string) (tryClick : M unit)
      (st st' : State) (s : string) :
  click_turn driver p text tryClick st = (Return s, st') -> s = clicked text.
Proof.
  unfold click_turn. unfold_monad.
  destruct (tryClick st) as [[[] | e] st1]; [|discriminate].
  destruct (await driver (WaitForTimeout p 600) st1) as [[[] | e] st2]; [|discriminate].
  now intros [= <- _].
Qed.

(** The loop returns at the first turn that does not throw, and throws
    "Could not click" when every turn threw. *)
Lemma click_loop_cases (p : Handle) (text : string) (attempts : list (M unit))
      (st : State) :
  (exists pre a post st1 st',
      attempts = (pre ++ a :: post)%list
      /\ all_fail (map (click_turn driver p text) pre) st st1
      /\ click_turn driver p text a st1 = (Return (clicked text), st')
      /\ click_loop driver p text attempts st = (Return (clicked text), st'))
  \/ (exists st',
         all_fail (map (click_turn driver p text) attempts) st st'
         /\ click_loop driver p text attempts st = (Throw (could_not_click text), st')).
Proof.
  revert st. induction attempts as [|a rest IH]; intros st.
  - right. exists st. split; [constructor | reflexivity].
  - simpl. unfold try_catch.
    destruct (click_turn driver p text a st) as [[s|e] st1] eqn:T.
    + pose proof (click_turn_returns _ _ _ _ _ _ T) as ->.
      left. exists [], a, rest, st, st1. repeat split; trivial. constructor.
    + destruct (IH st1) as [(pre & b & post & st2 & st' & -> & F & Tb & L) | (st' & F & L)].
      * left. exists (a :: pre), b, post, st2, st'. repeat split; trivial.
        simpl. now apply all_fail_cons with e st1.
      * right. exists st'. split; trivial. simpl. now apply all_fail_cons with e st1.
Qed.

Lemma click_attempts_closures (p : Handle) (text : string) :
  click_attempts driver regexp_compiles p text
  = map (click_closure driver regexp_compiles p text) click_strategies.
Proof. reflexivity. Qed.

(** One turn of the click loop is one strategy of the description. *)
Lemma click_turn_outcome (p : Handle) (text : string) (s : ClickStrategy) (st : State) :
  exists ok st',
    click_outcome driver regexp_compiles p text s st ok st'
    /\ match click_turn driver p text (click_closure driver regexp_compiles p text s) st with
       | (Return r, s') => ok = true /\ r = clicked text /\ s' = st'
       | (Throw _, s') => ok = false /\ s' = st'
       end.
Proof.
  assert (Direct :
    forall op : Op unit,
      click_call p text s = op ->
      (forall src, click_pattern s text = Some src -> regexp_compiles src = true) ->
      exists ok st',
        click_outcome driver regexp_compiles p text s st ok st'
        /\ match click_turn driver p text (await driver op) st with
           | (Return r, s') => ok = true /\ r = clicked text /\ s' = st'
           | (Throw _, s') => ok = false /\ s' = st'
           end).
  { intros op E C. unfold click_turn, bind, await, ret.
    destruct (driver unit (calls st) op) as [[]|e] eqn:D; cbn [calls browser page].
    - destruct (driver unit (calls st ++ [call op])%list (WaitForTimeout p 600))
        as [[]|e] eqn:W.
      + exists true. eexists. split; [|repeat split].
        apply click_settled with (logged st (call op)); trivial.
        * rewrite E. now split.
        * now split.
      + exists false. eexists. split; [|repeat split].
        apply click_delay_rejected with (logged st (call op)); trivial.
        * rewrite E. now split.
        * split; [now exists e | reflexivity].
    - exists false. eexists. split; [|repeat split].
      apply click_rejected; trivial. rewrite E. split; [now exists e | reflexivity]. }
  assert (Role :
    forall role : string,
      click_pattern s text = Some text ->
      click_call p text s = Click p (getByRole role (mkRegExp text "i")) 2000 ->
      exists ok st',
        click_outcome driver regexp_compiles p text s st ok st'
        /\ match click_turn driver p text
                           (re <- new_RegExp regexp_compiles text "i" ;;
                            await driver (Click p (getByRole role re) 2000)) st with
           | (Return r, s') => ok = true /\ r = clicked text /\ s' = st'
           | (Throw _, s') => ok = false /\ s' = st'
           end).
  { intros role P E. destruct (regexp_compiles text) eqn:C.
    - destruct (Direct _ E) as (ok & st' & O & R).
      { intros src H. rewrite P in H. now injection H as <-. }
      exists ok, st'. split; [exact O|].
      unfold click_turn, new_RegExp in *. rewrite C. exact R.
    - exists false, st. split; [now apply click_uncompilable with text|].
      unfold click_turn, new_RegExp, bind, throw. now rewrite C. }
  destruct s; simpl click_closure.
  - now apply Role.
  - now apply Role.
  - apply Direct; [reflexivity | discriminate].
  - apply Direct; [reflexivity | discriminate].
  - apply Direct; [reflexivity | discriminate].
Qed.

(** The click loop is the run of the strategies up to the first success. *)
Lemma click_loop_outcome (p : Handle) (text : string) (ss : list ClickStrategy) :
  forall st,
  exists ok st',
    first_ok (click_outcome driver regexp_compiles p text) ss st ok st'
    /\ click_loop driver p text (map (click_closure driver regexp_compiles p text) ss) st
       = ((if ok then Return (clicked text) else Throw (could_not_click text)), st').
Proof.
  induction ss as [|s ss IH]; intros st.
  - exists false, st. split; [constructor | reflexivity].
  - simpl. unfold try_catch.
    destruct (click_turn_outcome p text s st) as (ok & st1 & O & R).
    destruct (click_turn driver p text _ st) as [[r | e] s'].
    + destruct R as (-> & -> & ->). exists true, st1. split; [|reflexivity].
      now apply first_ok_hit.
    + destruct R as (-> & ->). destruct (IH st1) as (ok' & st' & F & L).
      exists ok', st'. split; [|exact L]. now apply first_ok_miss with st1.
Qed.

(** C7 (amended): with a non-empty text hint on an open session,
    act/click tries its five strategies in the fixed order button role,
    link role, visible text, raw text selector, contains-text selector.
    A strategy is its click, made through the driver unless its regular
    expression does not compile, followed when the click resolved by the
    600 ms settle delay; it fails when the click or the delay is
    rejected, and each failure is swallowed.  The action returns
    'Clicked "text"' at the first strategy that succeeds, without trying
    the later ones, and throws 'Failed to click: Could not click "text"'
    when each of the five has failed in its click or in its delay. *)
Theorem click_strategies_in_order :
  forall (text : string) (x y : option Z) (st : State) (p : Handle),
    text <> "" ->
    page st = Some p ->
    exists ok st',
      first_ok (click_outcome driver regexp_compiles p text)
               [ButtonRole; LinkRole; VisibleText; TextSelector; HasTextSelector]
               st ok st'
      /\ clickElement driver regexp_compiles (Some text) x y st
         = ((if ok
             then Return ("Clicked " ++ dq ++ text ++ dq)
             else Throw ("Failed to click: Could not click " ++ dq ++ text ++ dq)),
            st').
Proof.
  intros [|c text] x y st p N Hp; [contradiction|].
  destruct (click_loop_outcome p (String c text) click_strategies st)
    as (ok & st' & F & L).
  exists ok, st'. split; [exact F|].
  unfold clickElement. unfold_monad. rewrite Hp.
  rewrite click_attempts_closures.
  rewrite L. now destruct ok.
Qed.

(** C10: an empty text hint is treated as no text hint.  No text
    strategy runs: with both coordinates present, zero included, the
    only calls are the mouse click at those coordinates and the settle
    delay; with a coordinate missing the action throws "Provide text or
    coordinates" without any driver call. *)
Theorem empty_text_is_no_text :
  forall (x y : option Z) (st : State) (p : Handle),
    page st = Some p ->
    clickElement driver regexp_compiles (Some "") x y st
    = clickElement driver regexp_compiles None x y st
    /\ clickElement driver regexp_compiles (Some "") x y st
       = match x, y with
         | Some a, Some b =>
             let st1 := logged st (call (MouseClick p a b)) in
             let st2 := logged st1 (call (WaitForTimeout p 600)) in
             match driver unit (calls st) (MouseClick p a b) with
             | Rejected e => (Throw ("Failed to click: " ++ e), st1)
             | Resolved _ =>
                 match driver unit (calls st1) (WaitForTimeout p 600) with
                 | Rejected e => (Throw ("Failed to click: " ++ e), st2)
                 | Resolved _ =>
                     (Return ("Clicked at (" ++ of_Z a ++ ", " ++ of_Z b ++ ")"), st2)
                 end
             end
         | _, _ => (Throw "Failed to click: Provide text or coordinates", st)
         end.
Proof.
  intros x y st p Hp. split; [reflexivity|].
  unfold clickElement. unfold_monad. rewrite Hp.
  destruct x as [a|], y as [b|]; try reflexivity.
  unfold await at 1.
  destruct (driver unit (calls st) (MouseClick p a b)) as [[] | e]; [|reflexivity].
  unfold await; simpl.
  now destruct (driver unit _ (WaitForTimeout p 600)) as [[] | e].
Qed.

(* ---------------------------------------------------------------- *)
(** *** fill_form_fields *)

(** The pushes of the loop over the synonyms, seen as one list. *)
Lemma fill_attempts_from (p : Handle) (v : string) (labels : list string)
      (attempts : list (M unit)) :
  fold_left (push_attempts driver regexp_compiles p v) labels attempts
  = (attempts
     ++ flat_map (fun lbl => [ by_label driver regexp_compiles p lbl v;
                               by_placeholder driver regexp_compiles p lbl v;
                               by_name driver p (key_of lbl) v;
                               by_id driver p (key_of lbl) v;
                               by_label_element driver p lbl v ]) labels)%list.
Proof.
  revert attempts. induction labels as [|lbl labels IH]; intros attempts; simpl.
  - now rewrite app_nil_r.
  - rewrite IH. unfold push_attempts. now rewrite <- app_assoc.
Qed.

(** The loop over [attempts] returns [true] at the first attempt that
    does not throw, and [false] when every attempt threw. *)
Lemma first_success_cases (attempts : list (M unit)) (st : State) :
  (exists pre a post st1 st',
      attempts = (pre ++ a :: post)%list
      /\ all_fail pre st st1
      /\ a st1 = (Return tt, st')
      /\ first_success attempts st = (Return true, st'))
  \/ (exists st',
         all_fail attempts st st'
         /\ first_success attempts st = (Return false, st')).
Proof.
  revert st. induction attempts as [|a rest IH]; intros st.
  - right. exists st. split; [constructor | reflexivity].
  - simpl. unfold_monad. destruct (a st) as [[[] | e] st1] eqn:T.
    + left. exists [], a, rest, st, st1. repeat split; trivial. constructor.
    + destruct (IH st1) as [(pre & b & post & st2 & st' & -> & F & Tb & L) | (st' & F & L)].
      * left. exists (a :: pre), b, post, st2, st'. repeat split; trivial.
        now apply all_fail_cons with e st1.
      * right. exists st'. split; trivial. now apply all_fail_cons with e st1.
Qed.

Lemma first_success_all_fail (attempts : list (M unit)) (st st' : State) :
  all_fail attempts st st' -> first_success attempts st = (Return false, st').
Proof.
  induction 1 as [st | a rest st e st1 st2 T F IH]; [reflexivity|].
  simpl. unfold_monad. now rewrite T.
Qed.

(** What the manual label lookup fills once the label element exists:
    the input named by a non-empty [for] attribute, otherwise the first
    input under the parent of the label. *)
Lemma by_label_element_target (p : Handle) (lbl v : string) (st : State) (n : nat) :
  let labelEl := first (locator ("label:has-text(" ++ dq ++ lbl ++ dq ++ ")")) in
  let st1 := logged st (call (Count p labelEl)) in
  let st2 := logged st1 (call (GetAttribute p labelEl "for")) in
  driver nat (calls st) (Count p labelEl) = Resolved (S n) ->
  by_label_element driver p lbl v st
  = match driver (option string) (calls st1) (GetAttribute p labelEl "for") with
    | Resolved (Some (String c f)) =>
        await driver (Fill p (locator ("#" ++ String c f)) v 1000) st2
    | _ =>
        await driver
              (Fill p (first (sub_locator (sub_locator labelEl "..") "input")) v 1000) st2
    end.
Proof.
  intros labelEl st1 st2 C. subst st1 st2. unfold by_label_element. fold labelEl.
  unfold bind at 1. rewrite (await_resolved _ _ _ C).
  unfold logged, bind, try_catch, await, ret; simpl.
  destruct (driver (option string) _ (GetAttribute p labelEl "for"))
    as [[[|c f]|]|e]; reflexivity.
Qed.

Lemma strip_spaces_without (s : string) : without_spaces s (strip_spaces s).
Proof.
  induction s as [|c s IH]; simpl; [constructor|].
  destruct (is_space c) eqn:E; now constructor.
Qed.

Lemma key_of_normalized (lbl : string) : normalized_key lbl (key_of lbl).
Proof. apply strip_spaces_without. Qed.

Lemma fill_attempts_closures (p : Handle) (labels : list string) (v : string) :
  fill_attempts driver regexp_compiles p labels v
  = map (fill_closure driver regexp_compiles p v) (cross labels).
Proof.
  unfold fill_attempts. rewrite fill_attempts_from. cbn [app]. unfold cross.
  induction labels as [|lbl labels IH]; [reflexivity|].
  cbn [flat_map]. rewrite map_app, <- IH. reflexivity.
Qed.

(** The manual label lookup, call by call. *)
Lemma by_label_element_run (p : Handle) (lbl v : string) (st : State) :
  by_label_element driver p lbl v st
  = match driver nat (calls st) (Count p (label_element lbl)) with
    | Rejected e => (Throw e, logged st (call (Count p (label_element lbl))))
    | Resolved 0%nat =>
        (Throw "label not found", logged st (call (Count p (label_element lbl))))
    | Resolved (S _) =>
        await driver
              (Fill p (label_target driver p lbl
                                    (logged st (call (Count p (label_element lbl)))))
                    v 1000)
              (logged (logged st (call (Count p (label_element lbl))))
                      (call (GetAttribute p (label_element lbl) "for")))
    end.
Proof.
  unfold by_label_element, label_target, nested_input, label_element, logged,
    bind, try_catch, await, ret, throw; simpl.
  destruct (driver nat _ _) as [[|n]|e]; try reflexivity. simpl.
  destruct (driver (option string) _ _) as [[[|c f]|]|e]; reflexivity.
Qed.

(** One closure of [attempts] is one strategy of the description. *)
Lemma fill_closure_outcome (p : Handle) (v : string) (x : string * FillStrategy)
      (st : State) :
  exists ok st',
    fill_outcome driver regexp_compiles p v x st ok st'
    /\ runs_as (fill_closure driver regexp_compiles p v x) st ok st'.
Proof.
  assert (Direct :
    forall l : Locator,
      fill_locator (snd x) (fst x) (key_of (fst x)) = Some l ->
      (forall src, fill_pattern (snd x) (fst x) = Some src -> regexp_compiles src = true) ->
      exists ok st',
        fill_outcome driver regexp_compiles p v x st ok st'
        /\ runs_as (await driver (Fill p l v 1000)) st ok st').
  { intros l L C.
    exists (match driver unit (calls st) (Fill p l v 1000) with
            | Resolved _ => true | Rejected _ => false end),
           (logged st (call (Fill p l v 1000))).
    split.
    - apply fill_direct with (key_of (fst x)) l; trivial.
      + apply key_of_normalized.
      + now split.
    - unfold runs_as, await.
      now destruct (driver unit (calls st) (Fill p l v 1000)) as [[]|e]. }
  assert (Pattern :
    forall (src : string) (mk : RegExp -> Locator),
      fill_pattern (snd x) (fst x) = Some src ->
      fill_locator (snd x) (fst x) (key_of (fst x)) = Some (mk (mkRegExp src "i")) ->
      exists ok st',
        fill_outcome driver regexp_compiles p v x st ok st'
        /\ runs_as (re <- new_RegExp regexp_compiles src "i" ;;
                    await driver (Fill p (mk re) v 1000)) st ok st').
  { intros src mk P L. destruct (regexp_compiles src) eqn:C.
    - destruct (Direct _ L) as (ok & st' & O & R).
      { intros src' H. rewrite P in H. now injection H as <-. }
      exists ok, st'. split; [exact O|].
      unfold runs_as, new_RegExp, bind, ret in *. now rewrite C.
    - exists false, st. split; [now apply fill_uncompilable with src|].
      unfold runs_as, new_RegExp, bind, throw. now rewrite C. }
  destruct x as [lbl s]. unfold fill_closure. cbn [fst snd] in *. destruct s.
  - apply (Pattern ("^" ++ lbl ++ "$") getByLabel); reflexivity.
  - apply (Pattern lbl getByPlaceholder); reflexivity.
  - apply Direct; [reflexivity | discriminate].
  - apply Direct; [reflexivity | discriminate].
  - clear Direct Pattern. unfold runs_as. rewrite by_label_element_run.
    destruct (driver nat (calls st) (Count p (label_element lbl))) as [[|n]|e] eqn:C.
    + exists false. eexists. split; [|split; reflexivity].
      apply fill_no_label; [reflexivity|]. now split.
    + set (st1 := logged st (call (Count p (label_element lbl)))).
      set (st2 := logged st1 (call (GetAttribute p (label_element lbl) "for"))).
      exists (match driver unit (calls st2)
                           (Fill p (label_target driver p lbl st1) v 1000) with
              | Resolved _ => true | Rejected _ => false end),
             (logged st2 (call (Fill p (label_target driver p lbl st1) v 1000))).
      split.
      * apply fill_through_label with n st1; [reflexivity | now split | now split].
      * unfold await.
        now destruct (driver unit (calls st2)
                             (Fill p (label_target driver p lbl st1) v 1000)) as [[]|e].
    + exists false. eexists. split; [|split; reflexivity].
      apply fill_count_rejected; [reflexivity|]. split; [now exists e | reflexivity].
Qed.

(** The loop over a list of closures is the run of the items they stand
    for, up to the first success. *)
Lemma first_success_outcome {X} (outcome : X -> State -> bool -> State -> Prop)
      (f : X -> M unit) :
  (forall x st, exists ok st', outcome x st ok st' /\ runs_as (f x) st ok st') ->
  forall xs st,
  exists ok st',
    first_ok outcome xs st ok st'
    /\ first_success (map f xs) st = (Return ok, st').
Proof.
  intros H. induction xs as [|x xs IH]; intros st.
  - exists false, st. split; [constructor | reflexivity].
  - simpl. unfold_monad.
    destruct (H x st) as (ok & st1 & O & R). unfold runs_as in R.
    destruct (f x st) as [[[] | e] s]; destruct R as (-> & ->).
    + exists true, st1. split; [now apply first_ok_hit | reflexivity].
    + destruct (IH st1) as (ok' & st' & F & L).
      exists ok', st'. split; [now apply first_ok_miss with st1 | exact L].
Qed.

Lemma tryFill_outcome (p : Handle) (labels : list string) (v : string) (st : State) :
  exists ok st',
    first_ok (fill_outcome driver regexp_compiles p v) (cross labels) st ok st'
    /\ tryFill driver regexp_compiles p labels (Some v) st = (Return ok, st').
Proof.
  simpl tryFill. rewrite fill_attempts_closures.
  apply first_success_outcome. intros x st0. apply fill_closure_outcome.
Qed.


Lemma tryFill_returns (p : Handle) (labels : list string) (v : option string)
      (st : State) :
  exists ok st', tryFill driver regexp_compiles p labels v st = (Return ok, st').
Proof.
  destruct v as [v|]; simpl.
  - destruct (first_success_cases (fill_attempts driver regexp_compiles p labels v) st)
      as [(pre & a & post & st1 & st' & _ & _ & _ & L) | (st' & _ & L)]; eauto.
  - now exists false, st.
Qed.

Lemma has_value_some (t : Task) (v : string) : value t = Some v -> has_value t = true.
Proof. unfold has_value. now intros ->. Qed.

Lemma has_value_none (t : Task) : value t = None -> has_value t = false.
Proof. unfold has_value. now intros ->. Qed.

Lemma fill_loop_cons (p : Handle) (delay : Z) (t : Task) (rest : list Task)
      (results : list string) (st : State) :
  fill_loop driver regexp_compiles p delay (t :: rest) results st
  = match value t with
    | None => fill_loop driver regexp_compiles p delay rest results st
    | Some _ =>
        match tryFill driver regexp_compiles p (labels t) (value t) st with
        | (Return ok, st1) =>
            match settle driver p delay st1 with
            | (Return _, st2) =>
                fill_loop driver regexp_compiles p delay rest
                          (results ++ [entry t ok])%list st2
            | (Throw e, st2) => (Throw e, st2)
            end
        | (Throw e, st1) => (Throw e, st1)
        end
    end.
Proof. simpl. now destruct (value t). Qed.

(** Tasks without a value take no part in the loop. *)
Lemma fill_loop_skip (p : Handle) (delay : Z) (ts : list Task) :
  forall (results : list string) (st : State),
    fill_loop driver regexp_compiles p delay ts results st
    = fill_loop driver regexp_compiles p delay (filter has_value ts) results st.
Proof.
  induction ts as [|t ts IH]; intros results st; [reflexivity|].
  cbn [filter]. rewrite fill_loop_cons.
  destruct (value t) as [v|] eqn:E;
    [ rewrite (has_value_some t v E) | rewrite (has_value_none t E); apply IH ].
  rewrite fill_loop_cons, E.
  destruct (tryFill driver regexp_compiles p (labels t) (Some v) st) as [[ok | e] st1];
    [|reflexivity].
  destruct (settle driver p delay st1) as [[[] | e] st2]; [apply IH | reflexivity].
Qed.

(** The loop adds one entry per task with a value, in the order of the tasks. *)
Lemma fill_loop_entries (p : Handle) (delay : Z) (ts : list Task) :
  forall (results out : list string) (st st' : State),
    fill_loop driver regexp_compiles p delay ts results st = (Return out, st') ->
    exists oks,
      length oks = length (filter has_value ts)
      /\ out = (results
                ++ map (fun x => entry (fst x) (snd x))
                       (combine (filter has_value ts) oks))%list.
Proof.
  induction ts as [|t ts IH]; intros results out st st'.
  - intros [= <- _]. exists []. simpl. now rewrite app_nil_r.
  - rewrite fill_loop_cons. cbn [filter].
    destruct (value t) as [v|] eqn:E;
      [ rewrite (has_value_some t v E) | rewrite (has_value_none t E); apply IH ].
    destruct (tryFill driver regexp_compiles p (labels t) (Some v) st) as [[ok | e] st1];
      [|discriminate].
    destruct (settle driver p delay st1) as [[[] | e] st2]; [|discriminate].
    intros L. apply IH in L. destruct L as (oks & Len & ->).
    exists (ok :: oks). simpl. split; [now rewrite Len | now rewrite <- app_assoc].
Qed.

(** The loop goes through when the settle delay is zero or always resolves. *)
Lemma fill_loop_returns (p : Handle) (delay : Z) (ts : list Task) :
  (delay = 0%Z
   \/ forall log, driver unit log (WaitForTimeout p delay) = Resolved tt) ->
  forall (results : list string) (st : State),
  exists out st',
    fill_loop driver regexp_compiles p delay ts results st = (Return out, st').
Proof.
  intros W. induction ts as [|t ts IH]; intros results st.
  - now exists results, st.
  - rewrite fill_loop_cons. destruct (value t) as [v|] eqn:E; [|apply IH].
    destruct (tryFill_returns p (labels t) (Some v) st) as (ok & st1 & ->).
    assert (S : exists st2, settle driver p delay st1 = (Return tt, st2)).
    { unfold settle. destruct W as [-> | W].
      - now exists st1.
      - destruct (delay =? 0)%Z; [now exists st1|].
        eexists. apply await_resolved, W. }
    destruct S as [st2 ->]. apply IH.
Qed.

Lemma fillFormFields_open (a : FillArgs) (st : State) (p : Handle) :
  page st = Some p ->
  fillFormFields driver regexp_compiles a st
  = (results <- fill_loop driver regexp_compiles p (delay_of a) (tasks a) [] ;;
     ret (join "|" results)) st.
Proof. intros H. unfold fillFormFields. unfold_monad. now rewrite H. Qed.

(** C2: for every field with a value, fill form runs the attempts
    synonym-major: every synonym in its declared order and, for each, the
    accessible label (anchored, case-insensitive), the placeholder
    (case-insensitive), the input whose [name] contains the normalized
    key, the input whose [id] contains that key, and the manual label
    lookup, each as the driver call the description gives.  The first
    attempt that succeeds ends the processing of the field: the entry
    of the field is [ok], no later attempt runs, and the loop goes on
    with the delay and the next field; when none succeeds the entry is
    [missing]. *)
Theorem fill_attempts_synonym_major :
  forall (a : FillArgs) (st : State) (p : Handle),
    page st = Some p ->
    fillFormFields driver regexp_compiles a st
    = (results <- fill_loop driver regexp_compiles p (delay_of a) (tasks a) [] ;;
       ret (join "|" results)) st
    /\ forall (t : Task) (v : string) (rest : list Task) (results : list string)
              (st0 : State),
        value t = Some v ->
        exists ok st1,
          first_ok (fill_outcome driver regexp_compiles p v)
                   (flat_map (fun lbl => [ (lbl, AccessibleLabel); (lbl, Placeholder);
                                           (lbl, NameContains); (lbl, IdContains);
                                           (lbl, LabelElement) ]) (labels t))
                   st0 ok st1
          /\ tryFill driver regexp_compiles p (labels t) (Some v) st0 = (Return ok, st1)
          /\ fill_loop driver regexp_compiles p (delay_of a) (t :: rest) results st0
             = (settle driver p (delay_of a) ;;
                fill_loop driver regexp_compiles p (delay_of a) rest
                          (results
                           ++ [(key t ++ ":" ++ (if ok then "ok" else "missing"))%string])
                          %list) st1.
Proof.
  intros a st p Hp. split; [now apply fillFormFields_open|].
  intros t v rest results st0 Hv.
  destruct (tryFill_outcome p (labels t) v st0) as (ok & st1 & F & T).
  exists ok, st1. split; [exact F|]. split; [exact T|].
  rewrite fill_loop_cons, Hv, T. reflexivity.
Qed.

(** The entries of two tasks of the table coincide only for the same task. *)
Lemma entry_of_task (a : FillArgs) (t t' : Task) (ok ok' : bool) :
  In t (tasks a) -> In t' (tasks a) -> entry t ok = entry t' ok' -> t = t'.
Proof.
  unfold tasks. intros Ht Ht' E.
  repeat (destruct Ht as [<- | Ht]; [|]); try contradiction;
    repeat (destruct Ht' as [<- | Ht']; [|]); try contradiction;
      try reflexivity;
      destruct ok, ok'; cbv in E; discriminate E.
Qed.

(** C8: a field whose value is null is skipped entirely.  The run of
    fill form is the run of the loop over the tasks that have a value;
    [tryFill] given no value makes no attempt; the report has exactly
    one entry per task with a value, in the order of the tasks, and no
    entry, filled or missing, for a task without one. *)
Theorem null_value_skipped :
  forall (a : FillArgs) (st : State) (p : Handle),
    page st = Some p ->
    fillFormFields driver regexp_compiles a st
    = (results <- fill_loop driver regexp_compiles p (delay_of a)
                            (filter has_value (tasks a)) [] ;;
       ret (join "|" results)) st
    /\ (forall labels st0,
           tryFill driver regexp_compiles p labels None st0 = (Return false, st0))
    /\ (forall results st',
           fill_loop driver regexp_compiles p (delay_of a) (tasks a) [] st
           = (Return results, st') ->
           (exists oks,
               length oks = length (filter has_value (tasks a))
               /\ results = map (fun x => entry (fst x) (snd x))
                                (combine (filter has_value (tasks a)) oks))
           /\ (forall t ok,
                  In t (tasks a) -> value t = None -> ~ In (entry t ok) results)).
Proof.
  intros a st p Hp. split; [|split].
  - rewrite (fillFormFields_open a st p Hp). unfold bind.
    now rewrite fill_loop_skip.
  - reflexivity.
  - intros results st' L. apply fill_loop_entries in L.
    destruct L as (oks & Len & ->). cbn [app]. split; [now exists oks|].
    intros t ok Ht Hv Hin. apply in_map_iff in Hin.
    destruct Hin as ([t' ok'] & E & Hc). cbn [fst snd] in E.
    apply in_combine_l, filter_In in Hc. destruct Hc as [Ht' V].
    assert (t = t') as <- by (symmetry in E; now apply (entry_of_task a t t' ok ok')).
    rewrite (has_value_none t Hv) in V. discriminate.
Qed.

Lemma join_joined (sep : string) (xs : list string) : joined sep xs (join sep xs).
Proof.
  induction xs as [|x xs IH]; [constructor|].
  destruct xs as [|y xs]; [constructor|].
  change (join sep (x :: y :: xs)) with (x ++ sep ++ join sep (y :: xs)).
  now constructor.
Qed.

Lemma joined_occurs (sep : string) (es : list string) (s e : string) :
  joined sep es s -> In e es -> occurs_in e s.
Proof.
  induction 1 as [| x | x y rest s J IH]; intros I.
  - destruct I.
  - destruct I as [<- | []]. exists "", "". simpl. now rewrite append_nil_r.
  - destruct I as [<- | I].
    + now exists "", (sep ++ s).
    + destruct (IH I) as (pre & post & ->).
      exists (x ++ sep ++ pre), post. now rewrite !append_assoc.
Qed.

Lemma settle_settled (p : Handle) (delay : Z) (st : State) :
  (delay = 0%Z
   \/ forall log, driver unit log (WaitForTimeout p delay) = Resolved tt) ->
  exists st', settled driver p delay st st'
              /\ settle driver p delay st = (Return tt, st').
Proof.
  intros W. unfold settle, settled. destruct (Z.eqb_spec delay 0) as [E|N].
  - exists st. split; [now left | reflexivity].
  - destruct W as [E|W]; [contradiction|].
    exists (logged st (call (WaitForTimeout p delay))). split.
    + right. split; [exact N|]. split; [apply W | reflexivity].
    + apply await_resolved, W.
Qed.

(** The loop of fill form adds to [results] the entries of the description. *)
Lemma fill_loop_report (p : Handle) (delay : Z) (ts : list Task) :
  (delay = 0%Z
   \/ forall log, driver unit log (WaitForTimeout p delay) = Resolved tt) ->
  forall (results : list string) (st : State),
  exists es st',
    report_run driver regexp_compiles p delay ts st es st'
    /\ fill_loop driver regexp_compiles p delay ts results st
       = (Return (results ++ es)%list, st').
Proof.
  intros W. induction ts as [|t ts IH]; intros results st.
  - exists [], st. split; [constructor | simpl; now rewrite app_nil_r].
  - rewrite fill_loop_cons. destruct (value t) as [v|] eqn:Hv.
    + destruct (tryFill_outcome p (labels t) v st) as (ok & st1 & F & ->).
      destruct (settle_settled p delay st1 W) as (st2 & S & ->).
      destruct (IH (results ++ [entry t ok])%list st2) as (es & st' & R & ->).
      exists ((key t ++ ":" ++ (if ok then "ok" else "missing")) :: es), st'. split.
      * now apply report_run_field with v st1 st2.
      * unfold entry. now rewrite <- app_assoc.
    + destruct (IH results st) as (es & st' & R & ->).
      exists es, st'. split; [now apply report_run_skip | reflexivity].
Qed.

Lemma report_run_missing (p : Handle) (delay : Z) (ts : list Task) (st st' : State)
      (es : list string) :
  report_run driver regexp_compiles p delay ts st es st' ->
  forall (t : Task) (v : string),
    In t ts ->
    value t = Some v ->
    (forall st0 ok st1,
        first_ok (fill_outcome driver regexp_compiles p v) (cross (labels t)) st0 ok st1 ->
        ok = false) ->
    In (key t ++ ":missing") es.
Proof.
  induction 1 as [st | t0 ts st es st' N R IH | t0 v0 ts st ok st1 st2 es st' V F S R IH];
    intros t v I Hv U.
  - destruct I.
  - destruct I as [-> | I]; [congruence | now apply IH with v].
  - destruct I as [-> | I].
    + rewrite Hv in V. injection V as <-. rewrite (U _ _ _ F). now left.
    + right. now apply IH with v.
Qed.

(** C9: on an open session whose per-field delay is zero or resolves,
    fill form never throws, whatever the attempts give: it returns the
    report, which is the entries of the tasks with a value, in their
    order, joined by "|".  A field with a value none of whose attempts
    can succeed has the entry [key:missing] in the report, and the fields
    after it are processed and reported all the same. *)
Theorem unmatched_field_marked_missing :
  forall (a : FillArgs) (st : State) (p : Handle),
    page st = Some p ->
    (delay_of a = 0%Z
     \/ forall log, driver unit log (WaitForTimeout p (delay_of a)) = Resolved tt) ->
    exists (entries : list string) (report : string) (st' : State),
      fillFormFields driver regexp_compiles a st = (Return report, st')
      /\ report_run driver regexp_compiles p (delay_of a) (tasks a) st entries st'
      /\ joined "|" entries report
      /\ forall (t : Task) (v : string),
          In t (tasks a) ->
          value t = Some v ->
          (forall st0 ok st1,
              first_ok (fill_outcome driver regexp_compiles p v) (cross (labels t))
                       st0 ok st1 ->
              ok = false) ->
          In (key t ++ ":missing") entries
          /\ occurs_in (key t ++ ":missing") report.
Proof.
  intros a st p Hp W.
  destruct (fill_loop_report p (delay_of a) (tasks a) W [] st) as (es & st' & R & L).
  exists es, (join "|" es), st'.
  split; [rewrite (fillFormFields_open a st p Hp); unfold bind; now rewrite L|].
  split; [exact R|]. split; [apply join_joined|].
  intros t v I Hv U.
  assert (M : In (key t ++ ":missing") es)
    by (now apply (report_run_missing p (delay_of a) (tasks a) st st' es R t v)).
  split; [exact M|]. now apply joined_occurs with "|" es; [apply join_joined|].
Qed.

End Properties.

(* ================================================================== *)
(** ** The tools on scripted environments *)

Lemma closed_session_precondition_witness :
  page Script.closed = None
  /\ fails_uninitialized (openURL Script.signup "https://ui.chaicode.com") Script.closed
  /\ fails_uninitialized (takeScreenshot Script.signup Script.dir (Some "signup"))
                         Script.closed
  /\ fails_uninitialized (findElements Script.signup Script.hints) Script.closed
  /\ fails_uninitialized
       (clickElement Script.signup Script.compiles (Some "Sign Up") None None) Script.closed
  /\ fails_uninitialized
       (fillFormFields Script.signup Script.compiles Script.name_and_email) Script.closed
  /\ closeBrowser Script.signup Script.closed = (Return "Browser not open", Script.closed).
Proof.
  split; [reflexivity|].
  destruct (closed_session_precondition Script.signup Script.compiles Script.dir
                                        Script.closed eq_refl)
    as (A & B & C & D & E & F).
  exact (conj (A _) (conj (B _) (conj (C _) (conj (D _ _ _) (conj (E _) (F eq_refl)))))).
Defined.

(** close session on a closed session does not throw the precondition
    error: it returns a status string. *)
Lemma close_on_closed_session_returns :
  ~ (page Script.closed = None ->
     fails_uninitialized (closeBrowser Script.signup) Script.closed).
Proof.
  intros H. specialize (H eq_refl). unfold fails_uninitialized in H.
  cbv in H. discriminate H.
Qed.

Lemma confidence_counts_matching_entries_witness :
  findElements Script.signup Script.hints Script.opened
  = (Return Script.found, Script.located)
  /\ In Script.submit_candidate (Found.top Script.found)
  /\ exists p document selector el,
      page Script.opened = Some p
      /\ Script.signup _ (calls Script.opened) (Evaluate p Script.hints) = Resolved document
      /\ In selector Locate.selectors
      /\ In el (Document.querySelectorAll document selector)
      /\ Script.submit_candidate = Locate.candidate Script.hints el
      /\ match_count el Script.hints (Candidate.confidence Script.submit_candidate)
      /\ (NoDup Script.hints ->
          distinct_match_count el Script.hints
                               (Candidate.confidence Script.submit_candidate)).
Proof.
  split; [reflexivity|]. split; [vm_compute; left; reflexivity|].
  apply (confidence_counts_matching_entries
           Script.signup Script.hints Script.opened Script.located Script.found
           Script.submit_candidate).
  - reflexivity.
  - vm_compute. left. reflexivity.
Defined.

(** A term can be counted only once among distinct terms. *)
Lemma distinct_count_of_repeated (el : Element.t) (t : string) (n : nat) :
  distinct_match_count el [t; t] n -> (n <= 1)%nat.
Proof.
  intros (l & ND & Hl & <-).
  destruct l as [|x [|y l]]; simpl; [lia | lia |].
  assert (Hx : x = t).
  { destruct (proj1 (Hl x) (or_introl eq_refl)) as [[<- | [<- | []]] _]; reflexivity. }
  assert (Hy : y = t).
  { destruct (proj1 (Hl y) (or_intror (or_introl eq_refl))) as [[<- | [<- | []]] _];
      reflexivity. }
  subst. inversion ND as [|? ? N _]. destruct N. now left.
Qed.

(** With the hint list ["sign"; "sign"], the link "Sign Up" is returned
    with confidence 2, although one distinct term matches it. *)
Lemma repeated_term_counts_twice :
  ~ confidence_is_distinct_count Script.crowded Script.repeated_hints Script.opened.
Proof.
  intros H.
  destruct (H (Locate.result (Locate.page_function Script.crowded_page Script.repeated_hints))
              (logged Script.opened (call (Evaluate 2%nat Script.repeated_hints)))
              (Locate.candidate Script.repeated_hints Script.signup_link)
              eq_refl (or_introl eq_refl))
    as (p & document & selector & el & Hp & D & He & Hc & Hd).
  injection D as <-.
  change (In el (repeat Script.signup_link 10)) in He.
  apply repeat_spec in He. subst el.
  apply distinct_count_of_repeated in Hd. vm_compute in Hd. lia.
Qed.

Lemma ranking_order_witness :
  findElements Script.signup Script.hints Script.opened
  = (Return Script.found, Script.located)
  /\ nth_error (Found.top Script.found) 1 = Some Script.submit_candidate
  /\ nth_error (Found.top Script.found) 2 = Some Script.link_candidate
  /\ (Candidate.confidence Script.link_candidate
      <= Candidate.confidence Script.submit_candidate)%nat
  /\ (Candidate.confidence Script.submit_candidate
      = Candidate.confidence Script.link_candidate ->
      (String.length (Candidate.text Script.link_candidate)
       <= String.length (Candidate.text Script.submit_candidate))%nat).
Proof.
  split; [reflexivity|]. split; [vm_compute; reflexivity|].
  split; [vm_compute; reflexivity|].
  apply (ranking_order Script.signup Script.hints Script.opened Script.located
                       Script.found 1 2).
  - reflexivity.
  - constructor.
  - vm_compute. reflexivity.
  - vm_compute. reflexivity.
Defined.

Lemma invisible_never_returned_witness :
  findElements Script.signup Script.hints Script.opened
  = (Return Script.found, Script.located)
  /\ exists p document,
      page Script.opened = Some p
      /\ Script.signup _ (calls Script.opened) (Evaluate p Script.hints) = Resolved document
      /\ Script.found
         = Locate.result (Locate.page_function (only_visible document) Script.hints)
      /\ (forall el, ~ rendered el -> Locate.visit Script.hints el = [])
      /\ (forall c, In c (Found.top Script.found) ->
            exists selector el,
              In selector Locate.selectors
              /\ In el (Document.querySelectorAll document selector)
              /\ rendered el
              /\ c = Locate.candidate Script.hints el).
Proof.
  split; [reflexivity|].
  apply (invisible_never_returned Script.signup Script.hints Script.opened Script.located).
  reflexivity.
Defined.

Lemma at_most_six_candidates_witness :
  page Script.opened = Some 2%nat
  /\ Script.crowded _ (calls Script.opened) (Evaluate 2%nat Script.hints)
     = Resolved Script.crowded_page
  /\ exists r st',
      findElements Script.crowded Script.hints Script.opened = (Return r, st')
      /\ (length (Found.top r) <= 6)%nat
      /\ Found.count r = length (Found.top r)
      /\ ((forall selector el,
              In selector Locate.selectors ->
              In el (Document.querySelectorAll Script.crowded_page selector) ->
              ~ rendered el \/ (forall t, In t Script.hints -> ~ hint_matches el t)) ->
          r = Found.make 0 []).
Proof.
  split; [reflexivity|]. split; [reflexivity|].
  apply (at_most_six_candidates Script.crowded Script.hints Script.opened 2%nat
                                Script.crowded_page); reflexivity.
Defined.

Lemma click_strategies_in_order_witness :
  "Sign Up" <> ""
  /\ page Script.opened = Some 2%nat
  /\ exists ok st',
      first_ok (click_outcome
                  (Script.driver Script.signup_page Script.click_by_text_selector)
                  Script.compiles 2%nat "Sign Up")
               [ButtonRole; LinkRole; VisibleText; TextSelector; HasTextSelector]
               Script.opened ok st'
      /\ clickElement (Script.driver Script.signup_page Script.click_by_text_selector)
                      Script.compiles (Some "Sign Up") None None Script.opened
         = ((if ok
             then Return ("Clicked " ++ dq ++ "Sign Up" ++ dq)
             else Throw ("Failed to click: Could not click " ++ dq ++ "Sign Up" ++ dq)),
            st').
Proof.
  split; [discriminate|]. split; [reflexivity|].
  apply (click_strategies_in_order
           (Script.driver Script.signup_page Script.click_by_text_selector)
           Script.compiles "Sign Up" None None Script.opened 2%nat).
  - discriminate.
  - reflexivity.
Defined.

(** Where every click resolves and every settle delay is rejected,
    act/click clicks five times and then throws "Could not click",
    although no strategy failed to click. *)
Lemma rejected_delays_fail_the_click :
  ~ fails_only_after_all_clicks_fail
      (Script.driver Script.signup_page Script.clicks_only) Script.compiles
      "Sign Up" Script.opened.
Proof.
  intros H.
  assert (E : clickElement (Script.driver Script.signup_page Script.clicks_only)
                           Script.compiles (Some "Sign Up") None None Script.opened
              = (Throw ("Failed to click: Could not click " ++ dq ++ "Sign Up" ++ dq),
                 Script.clicked_five_times))
    by (vm_compute; reflexivity).
  specialize (H _ _ [] _ _ E eq_refl eq_refl).
  vm_compute in H. discriminate H.
Qed.

Lemma empty_text_is_no_text_witness :
  page Script.opened = Some 2%nat
  /\ clickElement Script.signup Script.compiles (Some "") (Some 0%Z) (Some 0%Z) Script.opened
     = clickElement Script.signup Script.compiles None (Some 0%Z) (Some 0%Z) Script.opened
  /\ clickElement Script.signup Script.compiles (Some "") (Some 0%Z) (Some 0%Z) Script.opened
     = (Return "Clicked at (0, 0)",
        mkState (Some 1%nat) (Some 2%nat)
                [call (MouseClick 2%nat 0 0); call (WaitForTimeout 2%nat 600)]).
Proof.
  split; [reflexivity|].
  apply (empty_text_is_no_text Script.signup Script.compiles (Some 0%Z) (Some 0%Z)
                               Script.opened 2%nat).
  reflexivity.
Defined.

Lemma null_value_skipped_witness :
  page Script.opened = Some 2%nat
  /\ fillFormFields (Script.driver Script.signup_page Script.email_by_id) Script.compiles
                    Script.name_and_email Script.opened
     = (results <- fill_loop (Script.driver Script.signup_page Script.email_by_id)
                             Script.compiles 2%nat 120
                             [ mkTask "First Name" (Some "Sudhesh")
                                      ["First Name"; "Firstname"; "Given Name"; "First"];
                               mkTask "Email" (Some "x@y.com")
                                      ["Email"; "Email Address"; "E-mail"] ] [] ;;
        ret (join "|" results)) Script.opened.
Proof.
  split; [reflexivity|].
  apply (null_value_skipped (Script.driver Script.signup_page Script.email_by_id)
                            Script.compiles Script.name_and_email Script.opened 2%nat).
  reflexivity.
Defined.

Lemma first_ok_never {X} (outcome : X -> State -> bool -> State -> Prop)
      (xs : list X) (st st' : State) (ok : bool) :
  (forall x s s', ~ outcome x s true s') ->
  first_ok outcome xs st ok st' -> ok = false.
Proof.
  intros N. induction 1 as [st | x rest st st' O | x rest st st1 ok st' O F IH].
  - reflexivity.
  - now apply N in O.
  - exact IH.
Qed.

(** Where only the delays resolve, no fill strategy succeeds. *)
Lemma only_waits_never_fills (p : Handle) (v : string) (x : string * FillStrategy)
      (s s' : State) :
  ~ fill_outcome (Script.driver Script.signup_page Script.only_waits) Script.compiles
                 p v x s true s'.
Proof.
  intros O. inversion O as [| k l ok st1 C K L S | | | n st1 ok st3 E R S]; subst.
  - destruct S as [_ S]. discriminate S.
  - destruct R as [R _]. discriminate R.
Qed.

Lemma unmatched_field_marked_missing_witness :
  page Script.opened = Some 2%nat
  /\ (forall log,
         Script.driver Script.signup_page Script.only_waits unit log
                       (WaitForTimeout 2%nat (delay_of Script.name_and_email))
         = Resolved tt)
  /\ exists (entries : list string) (report : string) (st' : State),
      fillFormFields (Script.driver Script.signup_page Script.only_waits)
                     Script.compiles Script.name_and_email Script.opened
      = (Return report, st')
      /\ report = "First Name:missing|Email:missing"
      /\ joined "|" entries report
      /\ In "Email:missing" entries
      /\ occurs_in "Email:missing" report.
Proof.
  assert (W : forall log,
             Script.driver Script.signup_page Script.only_waits unit log
                           (WaitForTimeout 2%nat (delay_of Script.name_and_email))
             = Resolved tt) by (intros log; reflexivity).
  split; [reflexivity|]. split; [exact W|].
  destruct (unmatched_field_marked_missing
              (Script.driver Script.signup_page Script.only_waits) Script.compiles
              Script.name_and_email Script.opened 2%nat eq_refl (or_intror W))
    as (entries & report & st' & E & R & J & U).
  exists entries, report, st'. split; [exact E|]. split.
  { assert (C : fst (fillFormFields (Script.driver Script.signup_page Script.only_waits)
                                    Script.compiles Script.name_and_email Script.opened)
                = Return "First Name:missing|Email:missing") by (vm_compute; reflexivity).
    rewrite E in C. simpl in C. now injection C. }
  split; [exact J|].
  apply (U (mkTask "Email" (Some "x@y.com") ["Email"; "Email Address"; "E-mail"])
           "x@y.com").
  - right. right. right. left. reflexivity.
  - reflexivity.
  - intros st0 ok st1 F. apply (first_ok_never _ _ _ _ _ (only_waits_never_fills _ _) F).
Defined.

Lemma fill_attempts_synonym_major_witness :
  page Script.opened = Some 2%nat
  /\ tryFill (Script.driver Script.signup_page Script.email_by_id) Script.compiles
             2%nat ["Email"] (Some "x@y.com") Script.opened
     = (Return true, Script.email_filled)
  /\ exists ok st1,
      first_ok (fill_outcome (Script.driver Script.signup_page Script.email_by_id)
                             Script.compiles 2%nat "x@y.com")
               [ ("Email", AccessibleLabel); ("Email", Placeholder);
                 ("Email", NameContains); ("Email", IdContains);
                 ("Email", LabelElement) ]
               Script.opened ok st1
      /\ tryFill (Script.driver Script.signup_page Script.email_by_id) Script.compiles
                 2%nat ["Email"] (Some "x@y.com") Script.opened
         = (Return ok, st1).
Proof.
  split; [reflexivity|]. split; [vm_compute; reflexivity|].
  destruct (fill_attempts_synonym_major
              (Script.driver Script.signup_page Script.email_by_id) Script.compiles
              Script.name_and_email Script.opened 2%nat eq_refl) as [_ B].
  destruct (B Script.email_task "x@y.com" [] [] Script.opened eq_refl)
    as (ok & st1 & F & T & _).
  exists ok, st1. split; [exact F | exact T].
Defined.

(* ================================================================== *)
(** ** Worked runs *)

Example toLowerCase_ex : toLowerCase "Sign Up" = "sign up".
Proof. reflexivity. Qed.

Example trim_ex : trim "  Create  Account
 " = "Create  Account".
Proof. reflexivity. Qed.

(** Case folding and trimming beyond the ASCII letters and spaces. *)
Example accented_ex :
  toLowerCase ("CAF" ++ Script.E_acute) = "caf" ++ Script.e_acute
  /\ trim (Script.nbsp ++ " Caf" ++ Script.e_acute ++ Script.nbsp)
     = "Caf" ++ Script.e_acute
  /\ strip_spaces ("a" ++ Script.nbsp ++ "b") = "ab".
Proof. repeat split. Qed.

(** An upper-case accented hint matches the accented text, and the
    returned text has lost its no-break spaces. *)
Example accented_hint_matches :
  Locate.visit ["CAF" ++ Script.E_acute] Script.cafe_link
  = [ Candidate.make ("Caf" ++ Script.e_acute) "a" None "" 1 (40%Z, 410%Z) ].
Proof. vm_compute. reflexivity. Qed.

(** On an SVG link the hint is matched against the string form of the
    [className] object, which is also what the candidate reports. *)
Example svg_class_name :
  Locate.visit ["animated"] Script.svg_link
  = [ Candidate.make "logo" "a" None "[object SVGAnimatedString]" 1 (22%Z, 512%Z) ]
  /\ hint_matches Script.svg_link "animated".
Proof.
  split; [vm_compute; reflexivity|].
  right. left. now exists "[object svg", "string]".
Qed.

Example key_ex : strip_spaces (toLowerCase "Re-enter Password") = "re-enterpassword".
Proof. reflexivity. Qed.

Example sanitize_ex : replace_nonword false "sign up!! now" = "sign_up_now".
Proof. reflexivity. Qed.

Example of_Z_ex : of_Z 0 = "0" /\ of_Z 640 = "640" /\ of_Z (-3) = "-3".
Proof. repeat split. Qed.

Example join_ex : join "|" ["Email:ok"; "Password:missing"] = "Email:ok|Password:missing".
Proof. reflexivity. Qed.

(** Opening, then closing, a session. *)
Example open_then_close :
  openBrowser Script.signup Script.closed
  = (Return "Browser opened",
     mkState (Some 1%nat) (Some 2%nat)
             [call Launch; call (NewPage 1%nat); call (SetViewportSize 2%nat 1280 720)])
  /\ closeBrowser Script.signup Script.opened
     = (Return "Browser closed", mkState None None [call (BrowserClose 1%nat)]).
Proof. split; reflexivity. Qed.

Example screenshot_name :
  fst (takeScreenshot Script.signup Script.dir (Some "signup") Script.opened)
  = Return "Screenshot saved: shot-1693333333333-signup.png".
Proof. vm_compute. reflexivity. Qed.

(** The signup page: the submit button is found by two selectors, the
    hidden button is absent although it matches all three hints. *)
Example locate_on_signup_page :
  map (fun c => (Candidate.text c, Candidate.confidence c)) (Found.top Script.found)
  = [("Sign Up Now", 3%nat); ("Sign Up Now", 3%nat); ("Sign Up", 2%nat);
     ("", 1%nat); ("", 1%nat)]
  /\ Found.count Script.found = 5%nat
  /\ Locate.matched_terms Script.hints Script.hidden_button = Script.hints
  /\ Locate.visit Script.hints Script.hidden_button = [].
Proof. vm_compute. repeat split. Qed.

Example locate_is_capped :
  Found.count (Locate.result (Locate.page_function Script.crowded_page Script.hints))
  = 6%nat
  /\ length (Locate.collect Script.crowded_page Script.hints) = 80%nat.
Proof. vm_compute. split; reflexivity. Qed.

Example locate_nothing :
  findElements (Script.driver Script.empty_page Script.always) Script.hints Script.opened
  = (Return (Found.make 0 []), Script.located).
Proof. reflexivity. Qed.

Example repeated_hint_confidence :
  Candidate.confidence (Locate.candidate Script.repeated_hints Script.signup_link) = 2%nat.
Proof. vm_compute. reflexivity. Qed.

(** Clicking "Sign Up" where only the raw text selector resolves: the
    first three strategies are tried and fail, the fourth clicks, the
    fifth is not tried. *)
Example click_fourth_strategy :
  clickElement (Script.driver Script.signup_page Script.click_by_text_selector)
               Script.compiles (Some "Sign Up") None None Script.opened
  = (Return ("Clicked " ++ dq ++ "Sign Up" ++ dq),
     mkState (Some 1%nat) (Some 2%nat)
             [ call (Click 2%nat (getByRole "button" (mkRegExp "Sign Up" "i")) 2000);
               call (Click 2%nat (getByRole "link" (mkRegExp "Sign Up" "i")) 2000);
               call (Click 2%nat (getByText "Sign Up") 2000);
               call (PageClick 2%nat ("text=" ++ dq ++ "Sign Up" ++ dq) 2000);
               call (WaitForTimeout 2%nat 600) ]).
Proof. vm_compute. reflexivity. Qed.

(** A text that is not a regular expression: the two role strategies
    throw before any call, the other three are still tried. *)
Example click_unbalanced_text :
  clickElement (Script.driver Script.signup_page Script.never) (fun _ => false)
               (Some "Sign (") None None Script.opened
  = (Throw ("Failed to click: Could not click " ++ dq ++ "Sign (" ++ dq),
     mkState (Some 1%nat) (Some 2%nat)
             [ call (Click 2%nat (getByText "Sign (") 2000);
               call (PageClick 2%nat ("text=" ++ dq ++ "Sign (" ++ dq) 2000);
               call (PageClick 2%nat (":has-text(" ++ dq ++ "Sign (" ++ dq ++ ")") 2000) ]).
Proof. vm_compute. reflexivity. Qed.

Example click_without_target :
  clickElement Script.signup Script.compiles None (Some 5%Z) None Script.opened
  = (Throw "Failed to click: Provide text or coordinates", Script.opened).
Proof. reflexivity. Qed.

(** Filling the email where only an [id] containing "email" resolves:
    four attempts for the first synonym, the fourth fills. *)
Example fill_email_by_id :
  tryFill (Script.driver Script.signup_page Script.email_by_id) Script.compiles 2%nat
          ["Email"; "Email Address"; "E-mail"] (Some "x@y.com") Script.opened
  = (Return true,
     mkState (Some 1%nat) (Some 2%nat)
             [ call (Fill 2%nat (getByLabel (mkRegExp "^Email$" "i")) "x@y.com" 1000);
               call (Fill 2%nat (getByPlaceholder (mkRegExp "Email" "i")) "x@y.com" 1000);
               call (Fill 2%nat
                          (first (locator ("input[name*=" ++ dq ++ "email" ++ dq ++ "]")))
                          "x@y.com" 1000);
               call (Fill 2%nat
                          (first (locator ("input[id*=" ++ dq ++ "email" ++ dq ++ "]")))
                          "x@y.com" 1000) ]).
Proof. vm_compute. reflexivity. Qed.

Example fill_report :
  fst (fillFormFields (Script.driver Script.signup_page Script.email_by_id) Script.compiles
                      Script.name_and_email Script.opened)
  = Return "First Name:missing|Email:ok"
  /\ fst (fillFormFields (Script.driver Script.signup_page Script.never) Script.compiles
                         Script.name_and_email Script.opened)
     = Throw "Timeout exceeded.".
Proof. vm_compute. split; reflexivity. Qed.

(* ================================================================== *)
(** ** Further properties of the tools *)

(** *** What a computation may do to the state *)

Lemma within_ret {A} (allowed : Call -> bool) (a : A) : within 0 allowed (ret a).
Proof.
  intros st. simpl. repeat split. exists []. now rewrite app_nil_r.
Qed.

Lemma within_throw {A} (allowed : Call -> bool) (e : string) :
  within 0 allowed (@throw A e).
Proof.
  intros st. simpl. repeat split. exists []. now rewrite app_nil_r.
Qed.

Lemma within_require_page (allowed : Call -> bool) : within 0 allowed require_page.
Proof.
  intros st. unfold require_page.
  assert (E : forall o : option Handle,
             snd match o with
                 | Some p => (Return p, st)
                 | None => (Throw not_initialized, st)
                 end = st) by (now intros [p|]).
  rewrite E. repeat split. exists []. now rewrite app_nil_r.
Qed.

Lemma within_await (driver : Driver) {R} (allowed : Call -> bool) (op : Op R) :
  allowed (call op) = true -> within 1 allowed (await driver op).
Proof.
  intros H st. unfold await.
  destruct (driver R (calls st) op); simpl; repeat split;
    exists [call op]; simpl; rewrite H; auto.
Qed.

Lemma within_weaken {A} (n n' : nat) (allowed : Call -> bool) (m : M A) :
  within n allowed m -> (n <= n')%nat -> within n' allowed m.
Proof.
  intros H L st. destruct (H st) as (B & P & l & C & Len & F).
  repeat split; trivial. exists l. repeat split; trivial. lia.
Qed.

Lemma within_allow {A} (n : nat) (allowed allowed' : Call -> bool) (m : M A) :
  (forall c, allowed c = true -> allowed' c = true) ->
  within n allowed m -> within n allowed' m.
Proof.
  intros Imp H st. destruct (H st) as (B & P & l & C & Len & F).
  repeat split; trivial. exists l. repeat split; trivial.
  apply forallb_forall. intros c Hc. apply Imp.
  revert c Hc. now apply forallb_forall.
Qed.

Lemma within_bind {A B} (n1 n2 : nat) (allowed : Call -> bool)
      (m : M A) (k : A -> M B) :
  within n1 allowed m -> (forall a, within n2 allowed (k a)) ->
  within (n1 + n2) allowed (bind m k).
Proof.
  intros Hm Hk st. unfold bind.
  destruct (Hm st) as (B1 & P1 & l1 & C1 & Len1 & F1).
  destruct (m st) as [[a | e] st1]; simpl in *.
  - destruct (Hk a st1) as (B2 & P2 & l2 & C2 & Len2 & F2).
    repeat split; [congruence | congruence |].
    exists (l1 ++ l2)%list. rewrite C2, C1, <- app_assoc, length_app, forallb_app, F1, F2.
    repeat split. lia.
  - repeat split; trivial. exists l1. repeat split; trivial. lia.
Qed.

Lemma within_try_catch {A} (n1 n2 : nat) (allowed : Call -> bool)
      (m : M A) (handler : string -> M A) :
  within n1 allowed m -> (forall e, within n2 allowed (handler e)) ->
  within (n1 + n2) allowed (try_catch m handler).
Proof.
  intros Hm Hh st. unfold try_catch.
  destruct (Hm st) as (B1 & P1 & l1 & C1 & Len1 & F1).
  destruct (m st) as [[a | e] st1]; simpl in *.
  - repeat split; trivial. exists l1. repeat split; trivial. lia.
  - destruct (Hh e st1) as (B2 & P2 & l2 & C2 & Len2 & F2).
    repeat split; [congruence | congruence |].
    exists (l1 ++ l2)%list. rewrite C2, C1, <- app_assoc, length_app, forallb_app, F1, F2.
    repeat split. lia.
Qed.

Lemma within_if {A} (n1 n2 : nat) (allowed : Call -> bool) (b : bool) (m1 m2 : M A) :
  within n1 allowed m1 -> within n2 allowed m2 ->
  within (Nat.max n1 n2) allowed (if b then m1 else m2).
Proof.
  intros H1 H2. destruct b; [apply within_weaken with n1 | apply within_weaken with n2];
    trivial; lia.
Qed.

Lemma within_option {A B} (n1 n2 : nat) (allowed : Call -> bool) (o : option B)
      (f : B -> M A) (g : M A) :
  (forall x, within n1 allowed (f x)) -> within n2 allowed g ->
  within (Nat.max n1 n2) allowed (match o with Some x => f x | None => g end).
Proof.
  intros H1 H2. destruct o; [apply within_weaken with n1 | apply within_weaken with n2];
    trivial; lia.
Qed.

(** Composes the bounds of a tool body; the sum found is compared with
    the bound asked for at the end. *)
Ltac within_body :=
  repeat first
         [ apply within_ret
         | apply within_throw
         | apply within_require_page
         | apply within_await; reflexivity
         | eapply within_bind; [|intros ?]
         | eapply within_try_catch; [|intros ?]
         | eapply within_if
         | eapply within_option; [intros ?|] ].

Ltac within_tool := eapply within_weaken; [within_body | cbn; lia].

Section Further.

Variable driver : Driver.
Variable regexp_compiles : string -> bool.
Variable SCREEN_DIR : string.

(* ------------------------------------------------------------------ *)
(** *** Calls made by click_element and fill_form_fields *)

Lemma click_loop_within (p : Handle) (text : string) (attempts : list (M unit)) :
  (forall a, In a attempts -> within 1 is_text_click a) ->
  within (2 * length attempts) is_text_click (click_loop driver p text attempts).
Proof.
  induction attempts as [|a rest IH]; intros H; simpl click_loop.
  - apply within_throw.
  - eapply within_weaken.
    + eapply within_try_catch; [|intros _; apply IH; intros b Hb; apply H; now right].
      unfold click_turn. eapply within_bind; [apply H; now left | intros _].
      within_body.
    + simpl. lia.
Qed.

Lemma click_attempts_within (p : Handle) (text : string) (a : M unit) :
  In a (click_attempts driver regexp_compiles p text) -> within 1 is_text_click a.
Proof.
  unfold click_attempts, new_RegExp. intros H.
  repeat (destruct H as [<- | H]); try contradiction; within_tool.
Qed.

Lemma first_success_cons_within (na n : nat) (allowed : Call -> bool)
      (a : M unit) (rest : list (M unit)) :
  within na allowed a -> within n allowed (first_success rest) ->
  within (na + n) allowed (first_success (a :: rest)).
Proof.
  intros Ha Hr. simpl first_success.
  eapply within_weaken.
  - eapply within_try_catch; [|intros _; exact Hr].
    eapply within_bind; [exact Ha | intros _; apply within_ret].
  - lia.
Qed.

Lemma by_label_element_within (p : Handle) (lbl v : string) :
  within 3 is_fill_call (by_label_element driver p lbl v).
Proof.
  unfold by_label_element. eapply within_weaken.
  - eapply within_bind; [apply within_await; reflexivity | intros has].
    eapply within_if; [apply within_throw|].
    eapply within_bind.
    + eapply within_try_catch; [apply within_await; reflexivity | intros _; apply within_ret].
    + intros [[|c f]|]; apply within_await; reflexivity.
  - simpl. lia.
Qed.

Lemma tryFill_within (p : Handle) (labels : list string) (v : option string) :
  within (7 * length labels) is_fill_call (tryFill driver regexp_compiles p labels v).
Proof.
  destruct v as [v|]; simpl tryFill;
    [|eapply within_weaken; [apply within_ret | lia]].
  unfold fill_attempts. rewrite fill_attempts_from. simpl app.
  induction labels as [|lbl labels IH]; simpl flat_map.
  - apply within_ret.
  - eapply within_weaken.
    + apply first_success_cons_within;
        [unfold by_label, new_RegExp; within_body|].
      apply first_success_cons_within;
        [unfold by_placeholder, new_RegExp; within_body|].
      apply first_success_cons_within; [unfold by_name; within_body|].
      apply first_success_cons_within; [unfold by_id; within_body|].
      apply first_success_cons_within; [apply by_label_element_within|].
      exact IH.
    + simpl length. lia.
Qed.

Lemma settle_within (p : Handle) (delay : Z) :
  within 1 is_form_call (settle driver p delay).
Proof. unfold settle. within_tool. Qed.

Lemma fill_loop_within (p : Handle) (delay : Z) (ts : list Task) :
  forall results,
    within (call_budget ts) is_form_call
           (fill_loop driver regexp_compiles p delay ts results).
Proof.
  induction ts as [|t ts IH]; intros results; simpl.
  - apply within_ret.
  - destruct (value t) as [v|].
    + eapply within_weaken.
      * eapply within_bind.
        { apply within_allow with is_fill_call; [|apply tryFill_within].
          intros c Hc. unfold is_form_call. now rewrite Hc. }
        intros ok. eapply within_bind; [apply settle_within | intros _; apply IH].
      * lia.
    + eapply within_weaken; [apply IH | lia].
Qed.

Lemma fill_loop_within_no_delay (p : Handle) (ts : list Task) :
  forall results,
    within (call_budget ts - length ts) is_fill_call
           (fill_loop driver regexp_compiles p 0 ts results).
Proof.
  assert (B : forall l : list Task, (length l <= call_budget l)%nat).
  { induction l; simpl; lia. }
  induction ts as [|t ts IH]; intros results; simpl.
  - apply within_ret.
  - destruct (value t) as [v|].
    + eapply within_weaken.
      * eapply within_bind; [apply tryFill_within | intros ok].
        eapply within_bind; [apply within_ret | intros _; apply IH].
      * specialize (B ts). lia.
    + eapply within_weaken; [apply IH|]. specialize (B ts). lia.
Qed.

(* ------------------------------------------------------------------ *)
(** *** The session variables *)

Lemma openURL_within (url : string) : within 3 any_call (openURL driver url).
Proof. unfold openURL. within_tool. Qed.

Lemma takeScreenshot_within (label : option string) :
  within 4 any_call (takeScreenshot driver SCREEN_DIR label).
Proof. unfold takeScreenshot, ensureScreenDir. within_tool. Qed.

Lemma findElements_within (terms : list string) :
  within 1 any_call (findElements driver terms).
Proof. unfold findElements. within_tool. Qed.

Lemma clickElement_text_within (c : ascii) (text : string) (x y : option Z) :
  within 10 is_text_click
         (clickElement driver regexp_compiles (Some (String c text)) x y).
Proof.
  unfold clickElement. eapply within_weaken.
  - eapply within_bind; [apply within_require_page | intros p].
    eapply within_try_catch; [|intros e; apply within_throw].
    apply within_weaken with (2 * 5)%nat; [|apply Nat.le_refl].
    apply (click_loop_within p (String c text)
                             (click_attempts driver regexp_compiles p (String c text))).
    apply click_attempts_within.
  - simpl. lia.
Qed.

Lemma clickElement_within (text : option string) (x y : option Z) :
  within 10 any_call (clickElement driver regexp_compiles text x y).
Proof.
  destruct text as [[|c text]|].
  - unfold clickElement. destruct x, y; within_tool.
  - apply within_allow with is_text_click; [reflexivity | apply clickElement_text_within].
  - unfold clickElement. destruct x, y; within_tool.
Qed.

Lemma fillFormFields_within (a : FillArgs) :
  within 197 is_form_call (fillFormFields driver regexp_compiles a).
Proof.
  unfold fillFormFields. eapply within_weaken.
  - eapply within_bind; [apply within_require_page | intros p].
    eapply within_bind; [apply fill_loop_within | intros r; apply within_ret].
  - cbn. lia.
Qed.

(** X1: navigate, capture, locate elements, act/click and fill form never
    write the [browser] and [page] variables, whatever they return or
    throw; they only add driver calls to the log: at most 3, 4, 1, 10 and
    197 calls for one invocation. *)
Theorem page_tools_keep_session :
  forall (url : string) (label : option string) (terms : list string)
         (text : option string) (x y : option Z) (a : FillArgs),
    within 3 any_call (openURL driver url)
    /\ within 4 any_call (takeScreenshot driver SCREEN_DIR label)
    /\ within 1 any_call (findElements driver terms)
    /\ within 10 any_call (clickElement driver regexp_compiles text x y)
    /\ within 197 any_call (fillFormFields driver regexp_compiles a).
Proof.
  intros. split; [apply openURL_within|]. split; [apply takeScreenshot_within|].
  split; [apply findElements_within|]. split; [apply clickElement_within|].
  apply within_allow with is_form_call; [reflexivity | apply fillFormFields_within].
Qed.

Lemma within_consistent {A} (n : nat) (allowed : Call -> bool) (m : M A) (st : State) :
  within n allowed m -> session_consistent st -> session_consistent (snd (m st)).
Proof.
  intros W C. destruct (W st) as (B & P & _). unfold session_consistent.
  now rewrite B, P.
Qed.

Lemma openBrowser_consistent (st : State) :
  session_consistent st -> session_consistent (snd (openBrowser driver st)).
Proof.
  intros C. unfold openBrowser, await. unfold_monad. simpl.
  destruct (driver Handle (calls st) Launch) as [b|e]; simpl; [|exact C].
  destruct (driver Handle _ (NewPage b)) as [p|e]; simpl;
    [|unfold session_consistent; simpl; discriminate].
  destruct (driver unit _ (SetViewportSize p 1280 720)) as [[]|e]; simpl;
    unfold session_consistent; simpl; discriminate.
Qed.

Lemma closeBrowser_consistent (st : State) :
  session_consistent st -> session_consistent (snd (closeBrowser driver st)).
Proof.
  intros C. unfold closeBrowser, await. unfold_monad.
  destruct (browser st) as [b|] eqn:B; simpl; [|exact C].
  destruct (driver unit (calls st) (BrowserClose b)) as [[]|e]; simpl.
  - unfold session_consistent; simpl. congruence.
  - unfold session_consistent in *; simpl. now rewrite B in *.
Qed.

(** X2: every tool keeps the session consistent: after any of the seven
    tools, returning or throwing, a page handle is held only together
    with a browser handle, so that close session can release it. *)
Theorem tools_keep_session_consistent :
  forall (st : State) (url : string) (label : option string) (terms : list string)
         (text : option string) (x y : option Z) (a : FillArgs),
    session_consistent st ->
    session_consistent (snd (openBrowser driver st))
    /\ session_consistent (snd (openURL driver url st))
    /\ session_consistent (snd (takeScreenshot driver SCREEN_DIR label st))
    /\ session_consistent (snd (findElements driver terms st))
    /\ session_consistent (snd (clickElement driver regexp_compiles text x y st))
    /\ session_consistent (snd (fillFormFields driver regexp_compiles a st))
    /\ session_consistent (snd (closeBrowser driver st)).
Proof.
  intros st url label terms text x y a C.
  split; [|split; [|split; [|split; [|split; [|split]]]]].
  - now apply openBrowser_consistent.
  - eapply within_consistent; [apply openURL_within | exact C].
  - eapply within_consistent; [apply takeScreenshot_within | exact C].
  - eapply within_consistent; [apply findElements_within | exact C].
  - eapply within_consistent; [apply clickElement_within | exact C].
  - eapply within_consistent; [apply fillFormFields_within | exact C].
  - now apply closeBrowser_consistent.
Qed.

(** X3: when open session returns, it returns "Browser opened"; the
    driver resolved, in this order, the launch with a browser handle,
    [newPage] on that browser with a page handle, and the 1280 x 720
    viewport on that page; the two variables hold those two handles, and
    these three calls are the ones that were made. *)
Theorem openBrowser_opens :
  forall (st st' : State) (s : string),
    openBrowser driver st = (Return s, st') ->
    s = "Browser opened"
    /\ exists b p,
        driver Handle (calls st) Launch = Resolved b
        /\ driver Handle (calls st ++ [call Launch])%list (NewPage b) = Resolved p
        /\ driver unit (calls st ++ [call Launch; call (NewPage b)])%list
                  (SetViewportSize p 1280 720) = Resolved tt
        /\ browser st' = Some b
        /\ page st' = Some p
        /\ calls st' = (calls st ++ [call Launch; call (NewPage b);
                                     call (SetViewportSize p 1280 720)])%list.
Proof.
  intros st st' s. unfold openBrowser, await. unfold_monad. simpl.
  destruct (driver Handle (calls st) Launch) as [b|e] eqn:L; simpl; [|discriminate].
  destruct (driver Handle _ (NewPage b)) as [p|e] eqn:N; simpl; [|discriminate].
  destruct (driver unit _ (SetViewportSize p 1280 720)) as [[]|e] eqn:V; simpl;
    [|discriminate].
  intros [= <- <-]. split; [reflexivity|]. exists b, p. simpl.
  rewrite <- !app_assoc in V. simpl in V.
  repeat split; trivial. now rewrite <- !app_assoc.
Qed.

(** X4: open session never releases anything.  Returning or throwing, on
    a closed or on an already open session, it makes at most three calls,
    none of them [browser.close], and a variable that held a handle
    still holds one afterwards. *)
Theorem openBrowser_never_releases :
  forall st : State,
    (exists l, calls (snd (openBrowser driver st)) = (calls st ++ l)%list
               /\ (length l <= 3)%nat
               /\ forallb (fun c => negb (is_browser_close c)) l = true)
    /\ (browser st <> None -> browser (snd (openBrowser driver st)) <> None)
    /\ (page st <> None -> page (snd (openBrowser driver st)) <> None).
Proof.
  intros st. unfold openBrowser, await. unfold_monad. simpl.
  destruct (driver Handle (calls st) Launch) as [b|e]; simpl.
  - destruct (driver Handle _ (NewPage b)) as [p|e]; simpl.
    + destruct (driver unit _ (SetViewportSize p 1280 720)) as [[]|e]; simpl;
        (repeat split; try discriminate;
         exists [call Launch; call (NewPage b); call (SetViewportSize p 1280 720)];
         rewrite <- !app_assoc; repeat split; simpl; lia).
    + repeat split; try discriminate; trivial.
      exists [call Launch; call (NewPage b)].
      rewrite <- !app_assoc; repeat split; simpl; lia.
  - repeat split; trivial. exists [call Launch]. repeat split; simpl; lia.
Qed.

(** X5: once close session has returned "Browser closed", both variables
    are empty; closing again returns "Browser not open" without any call,
    and navigate, capture, locate elements, act/click and fill form throw
    the precondition error without any call. *)
Theorem closed_after_close :
  forall (st st' : State),
    closeBrowser driver st = (Return "Browser closed", st') ->
    browser st' = None
    /\ page st' = None
    /\ closeBrowser driver st' = (Return "Browser not open", st')
    /\ (forall url, fails_uninitialized (openURL driver url) st')
    /\ (forall label, fails_uninitialized (takeScreenshot driver SCREEN_DIR label) st')
    /\ (forall terms, fails_uninitialized (findElements driver terms) st')
    /\ (forall text x y,
           fails_uninitialized (clickElement driver regexp_compiles text x y) st')
    /\ (forall a, fails_uninitialized (fillFormFields driver regexp_compiles a) st').
Proof.
  intros st st' H.
  assert (V : browser st' = None /\ page st' = None).
  { revert H. unfold closeBrowser, await. unfold_monad.
    destruct (browser st) as [b|]; [|discriminate].
    destruct (driver unit (calls st) (BrowserClose b)) as [[]|e]; simpl; [|discriminate].
    intros [= <-]. now split. }
  destruct V as [B P]. split; [exact B|]. split; [exact P|].
  split; [now apply closeBrowser_closed|].
  unfold fails_uninitialized, openURL, takeScreenshot, findElements, clickElement,
    fillFormFields.
  unfold_monad. rewrite P. repeat split.
Qed.

(** X6: when [browser.close] rejects, close session throws "Failed to
    close browser: " followed by the driver's message and leaves both
    variables as they were; a later close session whose [browser.close]
    resolves then closes the same browser and empties both variables. *)
Theorem close_failure_keeps_session :
  forall (st : State) (b : Handle) (e : string),
    browser st = Some b ->
    driver unit (calls st) (BrowserClose b) = Rejected e ->
    closeBrowser driver st
    = (Throw ("Failed to close browser: " ++ e), logged st (call (BrowserClose b)))
    /\ (driver unit (calls st ++ [call (BrowserClose b)])%list (BrowserClose b)
        = Resolved tt ->
        closeBrowser driver (logged st (call (BrowserClose b)))
        = (Return "Browser closed",
           mkState None None
                   (calls st ++ [call (BrowserClose b)] ++ [call (BrowserClose b)])%list)).
Proof.
  intros st b e B D. split.
  - unfold closeBrowser. unfold_monad. rewrite B.
    now rewrite (await_rejected _ _ _ _ D).
  - intros D'. rewrite (closeBrowser_open driver (logged st (call (BrowserClose b))) b B D').
    simpl. now rewrite <- app_assoc.
Qed.

(* ------------------------------------------------------------------ *)
(** *** Errors *)

Lemma cause_ret {A} (own : string -> Prop) (a : A) : throws_cause driver own (ret a).
Proof. intros st e st' H. discriminate H. Qed.

Lemma cause_throw {A} (own : string -> Prop) (e : string) :
  own e -> throws_cause driver own (@throw A e).
Proof. intros O st e' st' [= <- _]. now left. Qed.

Lemma cause_await {R} (own : string -> Prop) (op : Op R) :
  throws_cause driver own (await driver op).
Proof.
  intros st e st'. unfold await.
  destruct (driver R (calls st) op) as [r|e0] eqn:D; [discriminate|].
  intros [= <- <-]. right. now exists (calls st), R, op.
Qed.

Lemma cause_set_browser (own : string -> Prop) (b : option Handle) :
  throws_cause driver own (set_browser b).
Proof. intros st e st' H. discriminate H. Qed.

Lemma cause_set_page (own : string -> Prop) (p : option Handle) :
  throws_cause driver own (set_page p).
Proof. intros st e st' H. discriminate H. Qed.

Lemma cause_get_browser (own : string -> Prop) : throws_cause driver own get_browser.
Proof. intros st e st' H. discriminate H. Qed.

Lemma cause_bind {A B} (own : string -> Prop) (m : M A) (k : A -> M B) :
  throws_cause driver own m -> (forall a, throws_cause driver own (k a)) ->
  throws_cause driver own (bind m k).
Proof.
  intros Hm Hk st e st'. unfold bind.
  destruct (m st) as [[a | e0] st1] eqn:E.
  - apply Hk.
  - intros [= <- <-]. now apply (Hm st).
Qed.

Lemma cause_try_next {A} (own : string -> Prop) (m : M A) (next : string -> M A) :
  (forall e, throws_cause driver own (next e)) ->
  throws_cause driver own (try_catch m next).
Proof.
  intros H st e st'. unfold try_catch.
  destruct (m st) as [[a | e0] st1]; [discriminate | apply H].
Qed.

Ltac cause_body :=
  repeat first
         [ apply cause_ret
         | apply cause_await
         | apply cause_set_browser
         | apply cause_set_page
         | apply cause_get_browser
         | apply cause_bind; [|intros ?]
         | match goal with
           | |- throws_cause _ _ (if ?b then _ else _) => destruct b
           | |- throws_cause _ _ (match ?o with Some _ => _ | None => _ end) => destruct o
           end ].

Lemma prefixed_catch {A} (pre : string) (own : string -> Prop) (body : M A)
      (h : string -> string) :
  (forall e, h e = pre ++ e) ->
  throws_cause driver own body ->
  throws_prefixed driver pre own (try_catch body (fun error => throw (h error))).
Proof.
  intros Hh Hb st e st'. unfold try_catch, throw.
  destruct (body st) as [[a | e0] st1] eqn:E; [discriminate|].
  intros [= <- <-]. exists e0. split; [apply Hh | now apply (Hb st)].
Qed.

Lemma guarded_prefixed {A} (pre : string) (own : string -> Prop) (k : Handle -> M A) :
  (forall p, throws_prefixed driver pre own (k p)) ->
  throws_guarded driver pre own (p <- require_page ;; k p).
Proof.
  intros H st e st'. unfold_monad. destruct (page st) as [p|] eqn:Hp.
  - intros E. right. now apply (H p st).
  - intros [= <- <-]. now left.
Qed.

Lemma click_loop_cause (p : Handle) (text : string) (attempts : list (M unit)) :
  throws_cause driver (fun e => e = could_not_click text)
               (click_loop driver p text attempts).
Proof.
  induction attempts as [|a rest IH]; simpl.
  - now apply cause_throw.
  - apply cause_try_next. intros _. exact IH.
Qed.

(** X7: the only messages the tools throw, and where they come from.
    Open and close session throw their own prefix followed by the
    rejection message of the last call they made.  Navigate, capture,
    locate elements and act/click throw either the precondition error,
    on a state without page that they leave as it is, or their own prefix
    ("Failed to navigate to <url>: ", "Failed to take screenshot: ",
    "Failed to find elements: ", "Failed to click: ") followed by the
    rejection message of the last call they made; for act/click what
    follows the prefix can also be 'Provide text or coordinates' or
    'Could not click "text"' for the text given. *)
Theorem tool_errors_are_prefixed :
  forall (url : string) (label : option string) (terms : list string)
         (text : option string) (x y : option Z),
    throws_prefixed driver "Failed to open browser: " (fun _ => False)
                    (openBrowser driver)
    /\ throws_prefixed driver "Failed to close browser: " (fun _ => False)
                       (closeBrowser driver)
    /\ throws_guarded driver ("Failed to navigate to " ++ url ++ ": ") (fun _ => False)
                      (openURL driver url)
    /\ throws_guarded driver "Failed to take screenshot: " (fun _ => False)
                      (takeScreenshot driver SCREEN_DIR label)
    /\ throws_guarded driver "Failed to find elements: " (fun _ => False)
                      (findElements driver terms)
    /\ throws_guarded driver "Failed to click: "
                      (fun msg =>
                         msg = "Provide text or coordinates"
                         \/ exists t, text = Some t
                                      /\ msg = "Could not click " ++ dq ++ t ++ dq)
                      (clickElement driver regexp_compiles text x y).
Proof.
  intros.
  split; [apply prefixed_catch; [reflexivity | cause_body]|].
  split; [apply prefixed_catch; [reflexivity | cause_body]|].
  split.
  { apply guarded_prefixed; intros p. apply prefixed_catch; [|cause_body].
    intros e. now rewrite !append_assoc. }
  split.
  { apply guarded_prefixed; intros p. apply prefixed_catch; [reflexivity|].
    unfold ensureScreenDir. cause_body. }
  split; [apply guarded_prefixed; intros p; apply prefixed_catch;
          [reflexivity | cause_body]|].
  apply guarded_prefixed; intros p. apply prefixed_catch; [reflexivity|].
  destruct text as [[|c t]|].
  - destruct x, y; cause_body; apply cause_throw; now left.
  - intros st e st' H. apply click_loop_cause in H. destruct H as [-> | H].
    + left. right. now exists (String c t).
    + now right.
  - destruct x, y; cause_body; apply cause_throw; now left.
Qed.

Lemma settle_throws (p : Handle) (delay : Z) (st st' : State) (e : string) :
  settle driver p delay st = (Throw e, st') ->
  delay <> 0%Z /\ driver unit (calls st) (WaitForTimeout p delay) = Rejected e.
Proof.
  unfold settle. destruct (Z.eqb_spec delay 0) as [->|N]; [discriminate|].
  unfold await. destruct (driver unit (calls st) (WaitForTimeout p delay)) as [[] | e0];
    [discriminate|].
  now intros [= <- _].
Qed.

Lemma fill_loop_throws (p : Handle) (delay : Z) (ts : list Task) :
  forall (results : list string) (st st' : State) (e : string),
    fill_loop driver regexp_compiles p delay ts results st = (Throw e, st') ->
    delay <> 0%Z
    /\ exists log, driver unit log (WaitForTimeout p delay) = Rejected e.
Proof.
  induction ts as [|t ts IH]; intros results st st' e; [discriminate|].
  rewrite fill_loop_cons. destruct (value t) as [v|]; [|apply IH].
  destruct (tryFill_returns driver regexp_compiles p (labels t) (Some v) st)
    as (ok & st1 & ->).
  destruct (settle driver p delay st1) as [[[] | e0] st2] eqn:S; [apply IH|].
  intros [= <- _]. apply settle_throws in S. destruct S as [N D].
  split; [exact N | now exists (calls st1)].
Qed.

(** X8: fill form has no error prefix of its own.  When it throws, the
    message is the precondition error, or the per-field delay is not zero
    and the message is the driver's own rejection of a
    [waitForTimeout(delay)] call: no failed fill attempt ever surfaces. *)
Theorem fill_error_is_delay_rejection :
  forall (a : FillArgs) (st st' : State) (e : string),
    fillFormFields driver regexp_compiles a st = (Throw e, st') ->
    (page st = None /\ e = not_initialized)
    \/ (exists p log,
           page st = Some p
           /\ delay_of a <> 0%Z
           /\ driver unit log (WaitForTimeout p (delay_of a)) = Rejected e).
Proof.
  intros a st st' e. unfold fillFormFields. unfold_monad.
  destruct (page st) as [p|]; [|intros [= <- _]; now left].
  destruct (fill_loop driver regexp_compiles p (delay_of a) (tasks a) [] st)
    as [[out | e0] st1] eqn:L; [discriminate|].
  intros [= <- _]. right. apply fill_loop_throws in L. destruct L as (N & log & D).
  now exists p, log.
Qed.

(* ------------------------------------------------------------------ *)
(** *** click_element, further *)

(** X9: with a non-empty text hint, act/click never uses the coordinates:
    returning or throwing, it makes at most ten calls, each a locator
    click, a page click or a settle delay, and never a mouse click, even
    when every text strategy has failed and coordinates were given. *)
Theorem text_hint_never_uses_coordinates :
  forall (text : string) (x y : option Z),
    text <> "" ->
    within 10 is_text_click (clickElement driver regexp_compiles (Some text) x y).
Proof.
  intros [|c text] x y N; [contradiction|]. apply clickElement_text_within.
Qed.

(** X10: a text that does not compile as a regular expression never
    reaches the two role strategies: both throw before any call, and
    act/click goes on with the visible-text match, the raw text selector
    and the contains-text selector, in that order. *)
Theorem uncompilable_text_skips_role_strategies :
  forall (text : string) (x y : option Z) (st : State) (p : Handle),
    text <> "" ->
    regexp_compiles text = false ->
    page st = Some p ->
    clickElement driver regexp_compiles (Some text) x y st
    = try_catch
        (click_loop driver p text
           [ await driver (Click p (getByText text) 2000);
             await driver (PageClick p ("text=" ++ dq ++ text ++ dq) 2000);
             await driver (PageClick p (":has-text(" ++ dq ++ text ++ dq ++ ")") 2000) ])
        (fun error => throw ("Failed to click: " ++ error)) st.
Proof.
  intros [|c text] x y st p N R Hp; [contradiction|].
  unfold clickElement. unfold_monad. rewrite Hp.
  unfold click_attempts. simpl click_loop.
  unfold try_catch, click_turn, new_RegExp, bind, throw. now rewrite R.
Qed.

(* ------------------------------------------------------------------ *)
(** *** fill_form_fields, further *)

(** X11: the calls of fill form.  For one field, [tryFill] makes at most
    seven calls per synonym, all of them fills, counts or attribute
    reads; a whole invocation makes at most 197 calls, fills, counts,
    attribute reads and delays; with a per-field delay of 0 it makes no
    [waitForTimeout] call at all. *)
Theorem fill_calls_bounded :
  forall (a : FillArgs) (p : Handle) (labels : list string) (v : option string),
    within (7 * length labels) is_fill_call (tryFill driver regexp_compiles p labels v)
    /\ within 197 is_form_call (fillFormFields driver regexp_compiles a)
    /\ (perFieldDelayMs a = Some 0%Z ->
        within 189 is_fill_call (fillFormFields driver regexp_compiles a)).
Proof.
  intros a p labels v. split; [apply tryFill_within|].
  split; [apply fillFormFields_within|].
  intros D. unfold fillFormFields, delay_of. rewrite D. eapply within_weaken.
  - eapply within_bind; [apply within_require_page | intros q].
    eapply within_bind; [apply fill_loop_within_no_delay | intros r; apply within_ret].
  - cbn. lia.
Qed.

(** X12: with no field given, fill form returns the empty report and
    makes no call. *)
Theorem no_field_no_report :
  forall (a : FillArgs) (st : State) (p : Handle),
    page st = Some p ->
    (forall t, In t (tasks a) -> value t = None) ->
    fillFormFields driver regexp_compiles a st = (Return "", st).
Proof.
  intros a st p Hp H. rewrite (fillFormFields_open driver regexp_compiles a st p Hp).
  unfold bind. rewrite fill_loop_skip.
  replace (filter has_value (tasks a)) with (@nil Task); [reflexivity|].
  symmetry. apply filter_nil. intros t Ht. apply has_value_none. now apply H.
Qed.

(** X13: when an attempt for a field with a value succeeds after the
    attempts before it failed, the field is recorded as ok and, after the
    settle delay, the loop goes on with the following fields from the
    state that attempt left: no later attempt for the field is made. *)
Theorem matched_field_marked_ok :
  forall (p : Handle) (delay : Z) (t : Task) (v : string) (rest : list Task)
         (results : list string) (pre post : list (M unit)) (a : M unit)
         (st st1 st2 : State),
    value t = Some v ->
    fill_attempts driver regexp_compiles p (labels t) v = (pre ++ a :: post)%list ->
    all_fail pre st st1 ->
    a st1 = (Return tt, st2) ->
    fill_loop driver regexp_compiles p delay (t :: rest) results st
    = (settle driver p delay ;;
       fill_loop driver regexp_compiles p delay rest
                 (results ++ [(key t ++ ":ok")%string])%list) st2.
Proof.
  intros p delay t v rest results pre post a st st1 st2 Hv E F S.
  rewrite fill_loop_cons, Hv. simpl tryFill. rewrite E.
  assert (T : first_success (pre ++ a :: post) st = (Return true, st2)).
  { clear E. induction F as [st | b bs st e sta stb Tb F IH]; simpl.
    - unfold_monad. now rewrite S.
    - unfold_monad. rewrite Tb. now apply IH. }
  rewrite T. reflexivity.
Qed.

(* ------------------------------------------------------------------ *)
(** *** find_elements, further *)

Lemma length_slice0 (n : nat) (s : string) : (String.length (slice0 n s) <= n)%nat.
Proof.
  unfold slice0. revert s. induction n as [|n IH]; intros [|c s]; simpl; try lia.
  specialize (IH s). lia.
Qed.

(** X14: the fields of a returned candidate are bounded: its confidence
    is at least 1 and at most the number of hint terms, its text and its
    class name have at most 80 characters, and its id is never the empty
    string. *)
Theorem candidate_fields_bounded :
  forall (terms : list string) (st st' : State) (r : Found.t) (c : Candidate.t),
    findElements driver terms st = (Return r, st') ->
    In c (Found.top r) ->
    (1 <= Candidate.confidence c <= length terms)%nat
    /\ (String.length (Candidate.text c) <= 80)%nat
    /\ (String.length (Candidate.className c) <= 80)%nat
    /\ Candidate.id c <> Some "".
Proof.
  intros terms st st' r c F Hc.
  apply findElements_returns in F. destruct F as (p & document & _ & _ & ->).
  apply result_In, page_function_In in Hc. unfold Locate.collect in Hc.
  apply in_flat_map in Hc. destruct Hc as (selector & _ & Hc).
  apply in_flat_map in Hc. destruct Hc as (el & _ & Hc).
  apply visit_In in Hc. destruct Hc as (_ & -> & NE). simpl.
  repeat split; try apply length_slice0.
  - destruct (Locate.matched_terms terms el); [contradiction | simpl; lia].
  - apply filter_length_le.
  - destruct (Element.id el); simpl; discriminate.
Qed.

(** X15: with an empty list of hint terms nothing matches: locate
    elements on an open session returns count 0 and no candidate,
    whatever the page holds. *)
Theorem no_terms_no_candidates :
  forall (st : State) (p : Handle) (document : Document.t),
    page st = Some p ->
    driver _ (calls st) (Evaluate p []) = Resolved document ->
    findElements driver [] st
    = (Return (Found.make 0 []), logged st (call (Evaluate p []))).
Proof.
  intros st p document Hp D. rewrite (findElements_open driver [] st p document Hp D).
  unfold Locate.page_function.
  replace (Locate.collect document []) with (@nil Candidate.t); [reflexivity|].
  symmetry. unfold Locate.collect.
  apply flat_map_nil; intros selector _. apply flat_map_nil; intros el _.
  apply visit_unmatched. intros t [].
Qed.

Lemma visit_matched (terms : list string) (el : Element.t) (t : string) :
  rendered el -> In t terms -> hint_matches el t ->
  Locate.visit terms el = [Locate.candidate terms el].
Proof.
  intros R Ht Hm. unfold Locate.visit.
  apply visible_rendered in R. rewrite R.
  destruct (Locate.matched_terms terms el) eqn:E; [|reflexivity].
  assert (I : In t (Locate.matched_terms terms el)).
  { apply filter_In. split; [exact Ht | now apply term_matches_spec]. }
  rewrite E in I. destruct I.
Qed.

(** X16: the empty string is a hint term that matches everything: when
    the hint list contains it, every rendered element found by a
    whitelisted selector is among the ranked candidates. *)
Theorem empty_term_matches_everything :
  forall (document : Document.t) (terms : list string) (selector : string)
         (el : Element.t),
    In "" terms ->
    In selector Locate.selectors ->
    In el (Document.querySelectorAll document selector) ->
    rendered el ->
    In (Locate.candidate terms el) (Locate.page_function document terms).
Proof.
  intros document terms selector el Ht Hs He R.
  apply page_function_In. unfold Locate.collect.
  apply in_flat_map. exists selector. split; [exact Hs|].
  apply in_flat_map. exists el. split; [exact He|].
  rewrite (visit_matched terms el "" R Ht); [now left|].
  left. exists "", (toLowerCase (Locate.element_text el)). reflexivity.
Qed.

Lemma sorted_app {A} (R : A -> A -> Prop) (l1 l2 : list A) :
  StronglySorted R (l1 ++ l2) -> forall a b, In a l1 -> In b l2 -> R a b.
Proof.
  induction l1 as [|x l1 IH]; simpl; intros S a b Ha Hb; [destruct Ha|].
  inversion S as [|? ? S' F]; subst. destruct Ha as [<- | Ha].
  - assert (I : In b (l1 ++ l2)) by (apply in_or_app; now right).
    clear Hb. revert b I. now apply Forall_forall.
  - now apply IH.
Qed.

(** X17: the cut to six keeps the best: every candidate that locate
    elements leaves out ranks no better than every candidate it returns,
    and the returned count is the smaller of 6 and the number of
    candidates collected. *)
Theorem truncation_keeps_best :
  forall (document : Document.t) (terms : list string),
    (forall a b,
        In a (Found.top (Locate.result (Locate.page_function document terms))) ->
        In b (skipn 6 (Locate.page_function document terms)) ->
        ranks_before a b)
    /\ Found.count (Locate.result (Locate.page_function document terms))
       = Nat.min 6 (length (Locate.collect document terms)).
Proof.
  intros document terms. set (ranked := Locate.page_function document terms). split.
  - intros a b Ha Hb. apply (sorted_app ranks_before (firstn 6 ranked) (skipn 6 ranked));
      trivial.
    rewrite firstn_skipn. apply page_function_sorted.
  - unfold Locate.result. cbn [Found.count]. rewrite length_firstn. f_equal.
    apply Permutation_length. apply sort_perm.
Qed.

Lemma sort_of_sorted {A} (cmp : A -> A -> Z) (l : list A) :
  StronglySorted (before cmp) l -> Locate.sort cmp l = l.
Proof.
  induction 1 as [|x l S IH F]; [reflexivity|].
  unfold Locate.sort in *. simpl. rewrite IH.
  destruct l as [|y l]; [reflexivity|]. simpl.
  inversion F as [|? ? B _]; subst. unfold before in B.
  apply Z.leb_le in B. now rewrite B.
Qed.

(** X22: ranking is stable: when the collected candidates already stand
    in rank order, the ranked list is the collected list itself, so
    candidates that tie on confidence and text length keep the order in
    which the selectors and the document gave them. *)
Theorem ranking_keeps_ranked_order :
  forall (document : Document.t) (terms : list string),
    StronglySorted ranks_before (Locate.collect document terms) ->
    Locate.page_function document terms = Locate.collect document terms.
Proof.
  intros document terms S. unfold Locate.page_function. apply sort_of_sorted.
  induction S as [|x l S IH F]; constructor; [exact IH|].
  eapply Forall_impl; [|exact F]. intros y. apply compare_ranks.
Qed.

Lemma filter_length_perm {A} (f : A -> bool) (l l' : list A) :
  Permutation l l' -> length (filter f l) = length (filter f l').
Proof.
  induction 1 as [| x l l' _ IH | x y l | l l' l'' _ IH1 _ IH2]; simpl.
  - reflexivity.
  - destruct (f x); simpl; now rewrite IH.
  - destruct (f x), (f y); reflexivity.
  - now rewrite IH1.
Qed.

Lemma visit_perm (terms terms' : list string) (el : Element.t) :
  Permutation terms terms' -> Locate.visit terms el = Locate.visit terms' el.
Proof.
  intros P.
  pose proof (filter_length_perm
                (Locate.term_matches el (toLowerCase (Locate.element_text el)))
                terms terms' P) as L.
  unfold Locate.visit, Locate.candidate. fold (Locate.matched_terms terms el) in L.
  fold (Locate.matched_terms terms' el) in L. rewrite L.
  destruct (Locate.visible el); [|reflexivity].
  destruct (Locate.matched_terms terms el), (Locate.matched_terms terms' el);
    try discriminate; reflexivity.
Qed.

(** X18: the order in which the hint terms are given does not matter:
    two hint lists that are rearrangements of each other give the same
    ranked candidates and the same result. *)
Theorem hint_order_irrelevant :
  forall (document : Document.t) (terms terms' : list string),
    Permutation terms terms' ->
    Locate.page_function document terms = Locate.page_function document terms'
    /\ Locate.result (Locate.page_function document terms)
       = Locate.result (Locate.page_function document terms').
Proof.
  intros document terms terms' P.
  assert (E : Locate.page_function document terms = Locate.page_function document terms').
  { unfold Locate.page_function, Locate.collect. f_equal.
    apply flat_map_ext. intros selector. apply flat_map_ext. intros el.
    now apply visit_perm. }
  split; [exact E | now rewrite E].
Qed.

Lemma occurs_twice_perm {A} (c : A) (l l' : list A) :
  Permutation l l' -> occurs_twice c l -> occurs_twice c l'.
Proof.
  induction 1 as [| x l l' P IH | x y l | l l' l'' _ IH1 _ IH2]; intros T.
  - exact T.
  - inversion T as [k I | z k T']; subst.
    + apply occurs_twice_here. now apply (Permutation_in _ P).
    + apply occurs_twice_later. now apply IH.
  - inversion T as [k I | z k T']; subst.
    + destruct I as [<- | I].
      * apply occurs_twice_here. now left.
      * apply occurs_twice_later, occurs_twice_here. exact I.
    + inversion T' as [k I | z k T'']; subst.
      * apply occurs_twice_here. now right.
      * now apply occurs_twice_later, occurs_twice_later.
  - auto.
Qed.

Lemma occurs_twice_app {A} (c : A) (l1 l2 l3 : list A) :
  In c l2 -> In c l3 -> occurs_twice c (l1 ++ l2 ++ l3).
Proof.
  intros I2 I3. induction l1 as [|x l1 IH]; simpl; [|now apply occurs_twice_later].
  induction l2 as [|y l2 IH2]; [destruct I2|]. simpl. destruct I2 as [<- | I2].
  - apply occurs_twice_here. apply in_or_app. now right.
  - apply occurs_twice_later. now apply IH2.
Qed.

(** X19: candidates are not deduplicated: a rendered element that
    matches a hint term and is found by two of the whitelisted selectors
    is listed twice among the ranked candidates. *)
Theorem element_found_twice_listed_twice :
  forall (document : Document.t) (terms : list string) (i j : nat)
         (s1 s2 t : string) (el : Element.t),
    (i < j)%nat ->
    nth_error Locate.selectors i = Some s1 ->
    nth_error Locate.selectors j = Some s2 ->
    In el (Document.querySelectorAll document s1) ->
    In el (Document.querySelectorAll document s2) ->
    rendered el ->
    In t terms ->
    hint_matches el t ->
    occurs_twice (Locate.candidate terms el) (Locate.page_function document terms).
Proof.
  intros document terms i j s1 s2 t el Lt H1 H2 E1 E2 R Ht Hm.
  apply occurs_twice_perm with (Locate.collect document terms);
    [symmetry; apply sort_perm|].
  unfold Locate.collect.
  set (F := fun selector =>
              flat_map (Locate.visit terms) (Document.querySelectorAll document selector)).
  assert (V : forall s, In el (Document.querySelectorAll document s) ->
                        In (Locate.candidate terms el) (F s)).
  { intros s Hs. apply in_flat_map. exists el. split; [exact Hs|].
    rewrite (visit_matched terms el t R Ht Hm). now left. }
  destruct (nth_error_split _ _ H1) as (a & b & Sel & La).
  rewrite Sel in H2. rewrite nth_error_app2 in H2 by lia.
  replace (j - length a)%nat with (S (j - length a - 1)) in H2 by lia.
  simpl in H2. apply nth_error_In in H2.
  rewrite Sel. change (a ++ s1 :: b)%list with (a ++ [s1] ++ b)%list.
  rewrite !flat_map_app. apply occurs_twice_app.
  - simpl. rewrite app_nil_r. now apply V.
  - apply in_flat_map. exists s2. split; [exact H2 | now apply V].
Qed.

(* ------------------------------------------------------------------ *)
(** *** take_screenshot *)

Lemma replace_nonword_all_word (in_run : bool) (l : string) :
  all_word (replace_nonword in_run l) = true.
Proof.
  revert in_run. induction l as [|c l IH]; intros in_run; simpl; [reflexivity|].
  destruct (is_word c) eqn:W; simpl.
  - now rewrite W, IH.
  - destruct in_run; simpl; now rewrite ?IH.
Qed.

Lemma replace_nonword_truthy (l : string) :
  truthy (replace_nonword false l) = truthy l.
Proof. destruct l as [|c l]; simpl; [reflexivity | now destruct (is_word c)]. Qed.

(** X20: the name of a screenshot.  When capture returns, the driver
    answered the test that the screenshot directory exists, the
    directory was created just when the answer was no, and the clock was
    read after that; the message is "Screenshot saved: " followed by the
    file name, [shot-<now>.png] for a null or empty label and
    [shot-<now>-<w>.png] otherwise, where [now] is that clock reading and
    [w] is the label with every run of non-word characters replaced by
    one underscore, a non-empty string of word characters only; the last
    call is the screenshot into that file of the directory, which the
    driver resolved. *)
Theorem screenshot_name_is_sanitized :
  forall (label : option string) (st st' : State) (s : string),
    takeScreenshot driver SCREEN_DIR label st = (Return s, st') ->
    exists (p : Handle) (present : bool) (now : Z) (suffix : string),
      page st = Some p
      /\ driver bool (calls st) (ExistsSync SCREEN_DIR) = Resolved present
      /\ (present = false ->
          driver unit (calls st ++ [call (ExistsSync SCREEN_DIR)])%list
                 (MkdirSync SCREEN_DIR) = Resolved tt)
      /\ driver Z (calls st ++ call (ExistsSync SCREEN_DIR)
                            :: (if present then [] else [call (MkdirSync SCREEN_DIR)]))%list
                DateNow = Resolved now
      /\ (match label with
          | None | Some "" => suffix = ""
          | Some (String _ _ as lbl) =>
              exists w, suffix = "-" ++ w /\ w = replace_nonword false lbl
                        /\ w <> "" /\ all_word w = true
          end)
      /\ s = "Screenshot saved: " ++ "shot-" ++ of_Z now ++ suffix ++ ".png"
      /\ driver unit
                (calls st ++ call (ExistsSync SCREEN_DIR)
                         :: (if present then [] else [call (MkdirSync SCREEN_DIR)])
                         ++ [call DateNow])%list
                (Screenshot p (SCREEN_DIR ++ "/" ++ "shot-" ++ of_Z now
                                          ++ suffix ++ ".png"))
         = Resolved tt
      /\ calls st'
         = (calls st ++ call (ExistsSync SCREEN_DIR)
                  :: (if present then [] else [call (MkdirSync SCREEN_DIR)])
                  ++ [call DateNow;
                      call (Screenshot p (SCREEN_DIR ++ "/" ++ "shot-" ++ of_Z now
                                                     ++ suffix ++ ".png"))])%list.
Proof.
  intros label st st' s. unfold takeScreenshot, ensureScreenDir. unfold_monad.
  destruct (page st) as [p|] eqn:Hp; [|discriminate].
  set (sfx := match label with
              | Some l => if truthy l then replace_nonword false l else ""
              | None => ""
              end).
  assert (Sfx : match label with
                | None | Some "" => (if truthy sfx then "-" ++ sfx else "") = ""
                | Some (String _ _ as lbl) =>
                    exists w, (if truthy sfx then "-" ++ sfx else "") = "-" ++ w
                              /\ w = replace_nonword false lbl
                              /\ w <> "" /\ all_word w = true
                end).
  { subst sfx. destruct label as [[|c l]|]; try reflexivity.
    cbn [truthy]. rewrite replace_nonword_truthy. cbn [truthy].
    exists (replace_nonword false (String c l)). repeat split.
    - pose proof (replace_nonword_truthy (String c l)) as T.
      destruct (replace_nonword false (String c l)); [discriminate T | discriminate].
    - apply replace_nonword_all_word. }
  unfold await at 1.
  destruct (driver bool (calls st) (ExistsSync SCREEN_DIR)) as [present|e] eqn:DE;
    [|discriminate].
  cbn [browser page calls].
  destruct present; cbn [negb].
  - unfold await at 1. cbn [browser page calls].
    destruct (driver Z _ DateNow) as [now|e] eqn:DN; [|discriminate].
    unfold await. cbn [browser page calls].
    destruct (driver unit _ (Screenshot p _)) as [[]|e] eqn:DS; [|discriminate].
    intros [= <- <-].
    exists p, true, now, (if truthy sfx then "-" ++ sfx else "").
    cbn [calls]. rewrite <- !app_assoc in DS. cbn [app] in DS.
    repeat split; trivial; try discriminate. now rewrite <- !app_assoc.
  - unfold await at 1. cbn [browser page calls].
    destruct (driver unit _ (MkdirSync SCREEN_DIR)) as [[]|e] eqn:DM; [|discriminate].
    unfold await at 1. cbn [browser page calls].
    destruct (driver Z _ DateNow) as [now|e] eqn:DN; [|discriminate].
    unfold await. cbn [browser page calls].
    destruct (driver unit _ (Screenshot p _)) as [[]|e] eqn:DS; [|discriminate].
    intros [= <- <-].
    exists p, false, now, (if truthy sfx then "-" ++ sfx else "").
    cbn [calls]. rewrite <- ?app_assoc in DN. rewrite <- ?app_assoc in DS.
    cbn [app] in DN, DS.
    repeat split; trivial. now rewrite <- ?app_assoc.
Qed.

(* ------------------------------------------------------------------ *)
(** *** The agent run *)

(** X21: [chatWithAgent] never throws.  When the agent run returns, it
    leaves the state as the run left it.  When the run throws and a
    browser handle is held, it calls [browser.close] once, swallowing a
    rejection, and leaves both variables as they were; when no browser
    handle is held it makes no call. *)
Theorem chat_never_throws :
  forall (run : M string) (st : State),
    chatWithAgent driver run st
    = (Return tt,
       match run st with
       | (Return _, st1) => st1
       | (Throw _, st1) =>
           match browser st1 with
           | Some b => logged st1 (call (BrowserClose b))
           | None => st1
           end
       end).
Proof.
  intros run st. unfold chatWithAgent. unfold_monad.
  destruct (run st) as [[out | e] st1]; [reflexivity|].
  destruct (browser st1) as [b|]; [|reflexivity].
  unfold await. now destruct (driver unit (calls st1) (BrowserClose b)) as [[]|e'].
Qed.

End Further.

(* ================================================================== *)
(** ** Further runs on scripted environments *)

Lemma tools_keep_session_consistent_witness :
  session_consistent Script.opened
  /\ session_consistent (snd (openBrowser Script.signup Script.opened))
  /\ session_consistent (snd (closeBrowser Script.signup Script.opened)).
Proof.
  assert (C : session_consistent Script.opened) by (intros _; discriminate).
  split; [exact C|].
  destruct (tools_keep_session_consistent
              Script.signup Script.compiles Script.dir Script.opened
              "https://ui.chaicode.com" None Script.hints None None None
              Script.name_and_email C) as (A & _ & _ & _ & _ & _ & B).
  exact (conj A B).
Defined.

Lemma openBrowser_opens_witness :
  openBrowser Script.signup Script.closed
  = (Return "Browser opened",
     mkState (Some 1%nat) (Some 2%nat)
             [call Launch; call (NewPage 1%nat); call (SetViewportSize 2%nat 1280 720)])
  /\ exists b p,
      Script.signup Handle [] Launch = Resolved b
      /\ Script.signup Handle [call Launch] (NewPage b) = Resolved p
      /\ Script.signup unit [call Launch; call (NewPage b)] (SetViewportSize p 1280 720)
         = Resolved tt
      /\ Some 1%nat = Some b
      /\ Some 2%nat = Some p
      /\ [call Launch; call (NewPage 1%nat); call (SetViewportSize 2%nat 1280 720)]
         = [call Launch; call (NewPage b); call (SetViewportSize p 1280 720)].
Proof.
  split; [reflexivity|].
  apply (openBrowser_opens Script.signup Script.closed
           (mkState (Some 1%nat) (Some 2%nat)
                    [call Launch; call (NewPage 1%nat);
                     call (SetViewportSize 2%nat 1280 720)])
           "Browser opened").
  reflexivity.
Defined.

Lemma closed_after_close_witness :
  closeBrowser Script.signup Script.opened = (Return "Browser closed", Script.released)
  /\ closeBrowser Script.signup Script.released
     = (Return "Browser not open", Script.released)
  /\ fails_uninitialized (findElements Script.signup Script.hints) Script.released.
Proof.
  split; [reflexivity|].
  destruct (closed_after_close Script.signup Script.compiles Script.dir
                               Script.opened Script.released eq_refl)
    as (_ & _ & A & _ & _ & B & _).
  exact (conj A (B _)).
Defined.

Lemma close_failure_keeps_session_witness :
  browser Script.opened = Some 1%nat
  /\ Script.driver Script.signup_page Script.first_call_fails unit
                   (calls Script.opened) (BrowserClose 1%nat)
     = Rejected "Timeout exceeded."
  /\ closeBrowser (Script.driver Script.signup_page Script.first_call_fails) Script.opened
     = (Throw "Failed to close browser: Timeout exceeded.",
        mkState (Some 1%nat) (Some 2%nat) [call (BrowserClose 1%nat)])
  /\ closeBrowser (Script.driver Script.signup_page Script.first_call_fails)
                  (mkState (Some 1%nat) (Some 2%nat) [call (BrowserClose 1%nat)])
     = (Return "Browser closed",
        mkState None None [call (BrowserClose 1%nat); call (BrowserClose 1%nat)]).
Proof.
  split; [reflexivity|]. split; [reflexivity|].
  destruct (close_failure_keeps_session
              (Script.driver Script.signup_page Script.first_call_fails)
              Script.opened 1%nat "Timeout exceeded." eq_refl eq_refl) as (A & B).
  exact (conj A (B eq_refl)).
Defined.

Lemma fill_error_is_delay_rejection_witness :
  fillFormFields (Script.driver Script.signup_page Script.never) Script.compiles
                 Script.name_and_email Script.opened
  = (Throw "Timeout exceeded.",
     snd (fillFormFields (Script.driver Script.signup_page Script.never) Script.compiles
                         Script.name_and_email Script.opened))
  /\ ((page Script.opened = None /\ "Timeout exceeded." = not_initialized)
      \/ (exists p log,
             page Script.opened = Some p
             /\ delay_of Script.name_and_email <> 0%Z
             /\ Script.driver Script.signup_page Script.never unit log
                              (WaitForTimeout p (delay_of Script.name_and_email))
                = Rejected "Timeout exceeded.")).
Proof.
  assert (E : fillFormFields (Script.driver Script.signup_page Script.never)
                             Script.compiles Script.name_and_email Script.opened
              = (Throw "Timeout exceeded.",
                 snd (fillFormFields (Script.driver Script.signup_page Script.never)
                                     Script.compiles Script.name_and_email Script.opened)))
    by (vm_compute; reflexivity).
  split; [exact E|].
  exact (fill_error_is_delay_rejection
           (Script.driver Script.signup_page Script.never) Script.compiles
           Script.name_and_email Script.opened _ _ E).
Defined.

Lemma text_hint_never_uses_coordinates_witness :
  "Sign Up" <> ""
  /\ within 10 is_text_click
            (clickElement Script.signup Script.compiles (Some "Sign Up")
                          (Some 5%Z) (Some 7%Z)).
Proof.
  split; [discriminate|].
  apply (text_hint_never_uses_coordinates Script.signup Script.compiles "Sign Up").
  discriminate.
Defined.

Lemma uncompilable_text_skips_role_strategies_witness :
  "Sign (" <> ""
  /\ Script.no_regexp "Sign (" = false
  /\ page Script.opened = Some 2%nat
  /\ clickElement Script.signup Script.no_regexp (Some "Sign (") None None Script.opened
     = (Return ("Clicked " ++ dq ++ "Sign (" ++ dq),
        mkState (Some 1%nat) (Some 2%nat)
                [call (Click 2%nat (getByText "Sign (") 2000);
                 call (WaitForTimeout 2%nat 600)]).
Proof.
  split; [discriminate|]. split; [reflexivity|]. split; [reflexivity|].
  rewrite (uncompilable_text_skips_role_strategies
             Script.signup Script.no_regexp "Sign (" None None Script.opened 2%nat).
  - reflexivity.
  - discriminate.
  - reflexivity.
  - reflexivity.
Defined.

Lemma no_field_no_report_witness :
  page Script.opened = Some 2%nat
  /\ (forall t, In t (tasks Script.no_fields) -> value t = None)
  /\ fillFormFields Script.signup Script.compiles Script.no_fields Script.opened
     = (Return "", Script.opened).
Proof.
  assert (N : forall t, In t (tasks Script.no_fields) -> value t = None).
  { intros t H. unfold tasks in H.
    repeat (destruct H as [<- | H]; [reflexivity|]). destruct H. }
  split; [reflexivity|]. split; [exact N|].
  exact (no_field_no_report Script.signup Script.compiles Script.no_fields
                            Script.opened 2%nat eq_refl N).
Defined.

Lemma matched_field_marked_ok_witness :
  fill_loop (Script.driver Script.signup_page Script.email_by_id) Script.compiles
            2%nat 120 [Script.email_task] [] Script.opened
  = (settle (Script.driver Script.signup_page Script.email_by_id) 2%nat 120 ;;
     fill_loop (Script.driver Script.signup_page Script.email_by_id) Script.compiles
               2%nat 120 [] ["Email:ok"]) Script.email_filled.
Proof.
  eapply (matched_field_marked_ok
            (Script.driver Script.signup_page Script.email_by_id) Script.compiles
            2%nat 120 Script.email_task "x@y.com" [] []
            [ by_label (Script.driver Script.signup_page Script.email_by_id)
                       Script.compiles 2%nat "Email" "x@y.com";
              by_placeholder (Script.driver Script.signup_page Script.email_by_id)
                             Script.compiles 2%nat "Email" "x@y.com";
              by_name (Script.driver Script.signup_page Script.email_by_id)
                      2%nat "email" "x@y.com" ]
            [ by_label_element (Script.driver Script.signup_page Script.email_by_id)
                               2%nat "Email" "x@y.com" ]
            (by_id (Script.driver Script.signup_page Script.email_by_id)
                   2%nat "email" "x@y.com")
            Script.opened).
  - reflexivity.
  - reflexivity.
  - eapply all_fail_cons; [reflexivity|].
    eapply all_fail_cons; [reflexivity|].
    eapply all_fail_cons; [reflexivity|].
    apply all_fail_nil.
  - reflexivity.
Defined.

Lemma candidate_fields_bounded_witness :
  findElements Script.signup Script.hints Script.opened
  = (Return Script.found, Script.located)
  /\ In Script.link_candidate (Found.top Script.found)
  /\ (1 <= Candidate.confidence Script.link_candidate <= length Script.hints)%nat
  /\ (String.length (Candidate.text Script.link_candidate) <= 80)%nat
  /\ (String.length (Candidate.className Script.link_candidate) <= 80)%nat
  /\ Candidate.id Script.link_candidate <> Some "".
Proof.
  split; [reflexivity|].
  assert (I : In Script.link_candidate (Found.top Script.found))
    by (vm_compute; right; right; left; reflexivity).
  split; [exact I|].
  exact (candidate_fields_bounded Script.signup Script.hints Script.opened
                                  Script.located Script.found Script.link_candidate
                                  eq_refl I).
Defined.

Lemma no_terms_no_candidates_witness :
  page Script.opened = Some 2%nat
  /\ Script.crowded _ (calls Script.opened) (Evaluate 2%nat []) = Resolved Script.crowded_page
  /\ findElements Script.crowded [] Script.opened
     = (Return (Found.make 0 []), logged Script.opened (call (Evaluate 2%nat []))).
Proof.
  split; [reflexivity|]. split; [reflexivity|].
  exact (no_terms_no_candidates Script.crowded Script.opened 2%nat Script.crowded_page
                                eq_refl eq_refl).
Defined.

Lemma empty_term_matches_everything_witness :
  In "" [""]
  /\ In "button" Locate.selectors
  /\ In Script.icon_button (Document.querySelectorAll Script.signup_page "button")
  /\ rendered Script.icon_button
  /\ In (Locate.candidate [""] Script.icon_button)
        (Locate.page_function Script.signup_page [""]).
Proof.
  assert (S : In "button" Locate.selectors) by (right; left; reflexivity).
  assert (E : In Script.icon_button
                 (Document.querySelectorAll Script.signup_page "button"))
    by (right; right; left; reflexivity).
  assert (R : rendered Script.icon_button) by (split; reflexivity).
  split; [now left|]. split; [exact S|]. split; [exact E|]. split; [exact R|].
  exact (empty_term_matches_everything Script.signup_page [""] "button"
                                       Script.icon_button (or_introl eq_refl) S E R).
Defined.

Lemma hint_order_irrelevant_witness :
  Permutation ["sign"; "up"] ["up"; "sign"]
  /\ Locate.page_function Script.signup_page ["sign"; "up"]
     = Locate.page_function Script.signup_page ["up"; "sign"].
Proof.
  split; [apply perm_swap|].
  exact (proj1 (hint_order_irrelevant Script.signup_page ["sign"; "up"] ["up"; "sign"]
                                      (perm_swap _ _ _))).
Defined.

Lemma element_found_twice_listed_twice_witness :
  nth_error Locate.selectors 1 = Some "button"
  /\ nth_error Locate.selectors 5 = Some ".btn"
  /\ rendered Script.submit_button
  /\ hint_matches Script.submit_button "sign"
  /\ occurs_twice Script.submit_candidate
                  (Locate.page_function Script.signup_page Script.hints).
Proof.
  assert (R : rendered Script.submit_button) by (split; reflexivity).
  assert (H : hint_matches Script.submit_button "sign")
    by (left; exists "", " up now"; reflexivity).
  split; [reflexivity|]. split; [reflexivity|]. split; [exact R|]. split; [exact H|].
  apply (element_found_twice_listed_twice
           Script.signup_page Script.hints 1 5 "button" ".btn" "sign"
           Script.submit_button).
  - repeat constructor.
  - reflexivity.
  - reflexivity.
  - left. reflexivity.
  - left. reflexivity.
  - exact R.
  - left. reflexivity.
  - exact H.
Defined.

Lemma screenshot_name_is_sanitized_witness :
  takeScreenshot Script.signup Script.dir (Some "sign up!") Script.opened
  = (Return "Screenshot saved: shot-1693333333333-sign_up_.png",
     mkState (Some 1%nat) (Some 2%nat)
             [ call (ExistsSync Script.dir); call DateNow;
               call (Screenshot 2%nat (Script.dir ++ "/shot-1693333333333-sign_up_.png")) ])
  /\ exists (p : Handle) (present : bool) (now : Z) (suffix : string),
      page Script.opened = Some p
      /\ Script.signup bool (calls Script.opened) (ExistsSync Script.dir) = Resolved present
      /\ Script.signup Z (calls Script.opened ++ call (ExistsSync Script.dir)
                                :: (if present then []
                                    else [call (MkdirSync Script.dir)]))%list
                       DateNow = Resolved now
      /\ (exists w, suffix = "-" ++ w /\ w = replace_nonword false "sign up!"
                    /\ w <> "" /\ all_word w = true)
      /\ "Screenshot saved: shot-1693333333333-sign_up_.png"
         = "Screenshot saved: " ++ "shot-" ++ of_Z now ++ suffix ++ ".png".
Proof.
  assert (E : takeScreenshot Script.signup Script.dir (Some "sign up!") Script.opened
              = (Return "Screenshot saved: shot-1693333333333-sign_up_.png",
                 mkState (Some 1%nat) (Some 2%nat)
                         [ call (ExistsSync Script.dir); call DateNow;
                           call (Screenshot 2%nat
                                   (Script.dir ++ "/shot-1693333333333-sign_up_.png")) ]))
    by (vm_compute; reflexivity).
  split; [exact E|].
  destruct (screenshot_name_is_sanitized Script.signup Script.dir (Some "sign up!")
                                         Script.opened _ _ E)
    as (p & present & now & suffix & Hp & DE & _ & DN & W & S & _ & _).
  exists p, present, now, suffix. repeat split; trivial.
Defined.

Lemma ranking_keeps_ranked_order_witness :
  Locate.collect Script.signup_page ["up now"]
  = [Locate.candidate ["up now"] Script.submit_button;
     Locate.candidate ["up now"] Script.submit_button]
  /\ Locate.page_function Script.signup_page ["up now"]
     = Locate.collect Script.signup_page ["up now"].
Proof.
  assert (E : Locate.collect Script.signup_page ["up now"]
              = [Locate.candidate ["up now"] Script.submit_button;
                 Locate.candidate ["up now"] Script.submit_button])
    by (vm_compute; reflexivity).
  split; [exact E|].
  apply (ranking_keeps_ranked_order Script.signup_page ["up now"]).
  rewrite E.
  assert (R : ranks_before (Locate.candidate ["up now"] Script.submit_button)
                           (Locate.candidate ["up now"] Script.submit_button))
    by (right; split; [reflexivity | apply le_n]).
  constructor; [constructor; [constructor | constructor] | constructor; [exact R | constructor]].
Defined.
